(** * argh: a header-only command line parser (src/argh.h, src/main.cpp)

    A shallow embedding of the header [argh.h] and of the example program
    [main.cpp], and the properties of the code that the specification
    states about them.

    Conventions of the embedding.
    - [const char*] is [cstr := option string]: [None] is the null pointer,
      [Some s] points to the characters of [s] (the terminating NUL is not
      part of [s]).
    - A computation that runs into undefined behaviour (a null or
      out-of-bounds dereference, [std::string] built from a null pointer)
      has no result: it is [None] in [option], or [Undefined] in [outcome].
    - [char] is a signed 8-bit integer and [int] a 32-bit one, as on the
      x86 targets the program is built for.
    - Where the C and C++ standards leave a choice to the library, the
      embedding follows libstdc++ and glibc: the texts of [what()], when
      a conversion sets [ERANGE], and what the insertion of a null
      [const char*] into a stream does.
    - The caller's memory is a type [S]; a pointer of type [T*] into it is
      given by its load and its store, [Ptr S T]. *)

From Stdlib Require Import ZArith Ascii String SpecFloat Sorted Lia.
From stdpp Require Import base option list strings pretty.

Local Open Scope Z_scope.

(** ** The parts of the C and C++ standard libraries the header calls *)

Module std.

(** [const char*] *)
Definition cstr : Type := option string.

(** A [const char*] kept beyond the life of the object that owns its
    characters is [dangling]: it still holds an address, and nothing is
    known of what is there. *)
Inductive cstr_ref : Type :=
| valid (s : cstr)
| dangling.

(** The two exceptions [parseValue] catches, with their [what()] text. *)
Inductive exn : Type :=
| invalid_argument (what : string)
| out_of_range (what : string).

(** Result of evaluating an expression that may throw. *)
Inductive outcome (T : Type) : Type :=
| Return (v : T)
| Throw (e : exn)
| Undefined.
Global Arguments Return {T} v.
Global Arguments Throw {T} e.
Global Arguments Undefined {T}.

Definition code (c : ascii) : Z := Z.of_N (N_of_ascii c).

(** [isspace] in the "C" locale: space, \t, \n, \v, \f, \r. *)
Definition isspace (c : ascii) : bool :=
  (code c =? 32) || ((9 <=? code c) && (code c <=? 13)).

Definition isdigit (c : ascii) : bool :=
  (48 <=? code c) && (code c <=? 57).

Definition digit_value (c : ascii) : Z := code c - 48.

Definition INT_MIN : Z := - 2147483648.
Definition INT_MAX : Z := 2147483647.

Definition in_int_range (v : Z) : bool := (INT_MIN <=? v) && (v <=? INT_MAX).

(** [strtol], base 10: leading white space is skipped, ... *)
Fixpoint skip_space (s : string) : string :=
  match s with
  | String c s' => if isspace c then skip_space s' else s
  | EmptyString => s
  end.

(** ... one optional sign is read ([true] for a minus), ... *)
Definition read_sign (s : string) : bool * string :=
  match s with
  | String c s' =>
      if Ascii.eqb c "-" then (true, s')
      else if Ascii.eqb c "+" then (false, s')
      else (false, s)
  | EmptyString => (false, s)
  end.

(** ... and then as many digits as there are; [None] when there is none.
    [acc] is the value of the digits read so far. *)
Fixpoint read_digits (acc : option Z) (s : string) : option Z :=
  match s with
  | String c s' =>
      if isdigit c
      then read_digits (Some (10 * default 0 acc + digit_value c)) s'
      else acc
  | EmptyString => acc
  end.

(** [std::stoi(const std::string&)]: [invalid_argument] when no conversion
    could be performed, [out_of_range] when the value does not fit [int].
    The [what()] text is libstdc++'s. *)
Definition stoi (str : string) : outcome Z :=
  let '(neg, s) := read_sign (skip_space str) in
  match read_digits None s with
  | None => Throw (invalid_argument "stoi")
  | Some n =>
      let v := if neg then - n else n in
      if in_int_range v then Return v else Throw (out_of_range "stoi")
  end.

(** Construction of a [std::string] from a [const char*]: undefined for
    the null pointer. *)
Definition string_of_cstr (s : cstr) : outcome string :=
  match s with
  | Some s => Return s
  | None => Undefined
  end.

(** [os << std::left; os.width(w); os << s]: [s] padded with spaces on
    the right up to [w] characters, never cut. *)
Definition left_width (w : nat) (s : string) : string :=
  s +:+ String.concat EmptyString
          (replicate (w - String.length s)%nat " "%string).

(** [std::endl] *)
Definition endl : string := String "010" EmptyString.

(** [(int)c] for a [char c] *)
Definition int_of_char (c : ascii) : Z :=
  if code c <? 128 then code c else code c - 256.

(** [s[0]] for a non-null [s]: the first character, or the terminating
    NUL of the empty string. *)
Definition first_char (s : string) : ascii :=
  match s with
  | String c _ => c
  | EmptyString => Ascii.zero
  end.

(** [argv[i]] where [argv] is the argument vector of a process: its
    strings, then one null pointer; any other access is out of bounds. *)
Definition index_argv (argv : list string) (i : Z) : option cstr :=
  if i <? 0 then None
  else match argv !! Z.to_nat i with
       | Some s => Some (Some s)
       | None => if i =? Z.of_nat (length argv) then Some None else None
       end.

(** IEEE binary32 and binary64 data. Their formatting ([operator<<])
    is not part of the embedding; it is supplied where a parameter of
    such a type is built. *)
Definition float : Type := spec_float.
Definition double : Type := spec_float.

(** *** [strtof] and [strtod], as [std::stof] and [std::stod] call them *)

(** [isxdigit] and the value of a hexadecimal digit *)
Definition isxdigit (c : ascii) : bool :=
  isdigit c
  || ((65 <=? code c) && (code c <=? 70))
  || ((97 <=? code c) && (code c <=? 102)).

Definition xdigit_value (c : ascii) : Z :=
  if isdigit c then code c - 48
  else if code c <? 97 then code c - 55
  else code c - 87.

(** [tolower] in the "C" locale, on character codes *)
Definition tolower (c : ascii) : Z :=
  if (65 <=? code c) && (code c <=? 90) then code c + 32 else code c.

(** [strncasecmp(s, word, strlen(word)) == 0] for a lower-case [word] *)
Fixpoint starts_with_nocase (word s : string) : bool :=
  match word, s with
  | EmptyString, _ => true
  | String w word', String c s' =>
      (tolower c =? code w) && starts_with_nocase word' s'
  | String _ _, EmptyString => false
  end.

Section numeral.
(** the digits of a radix: [isd] recognises them, [val] is their value *)
Variables (isd : ascii → bool) (val : ascii → Z) (radix : Z).

(** As many digits as there are: the number they continue from [acc],
    how many they are, and what follows them. *)
Fixpoint read_radix (acc cnt : Z) (s : string) : Z * Z * string :=
  match s with
  | String c s' =>
      if isd c then read_radix (radix * acc + val c) (cnt + 1) s'
      else (acc, cnt, s)
  | EmptyString => (acc, cnt, s)
  end.

(** After the digits of the number [ip], a point and as many digits as
    there are: the number with these digits, how many they are, and the
    rest. *)
Definition read_fraction (ip : Z) (s : string) : Z * Z * string :=
  match s with
  | String c s' =>
      if Ascii.eqb c "." then read_radix ip 0 s' else (ip, 0, s)
  | EmptyString => (ip, 0, s)
  end.

(** Digits with at most one point among them, one digit at least: all
    the digits as one number, how many follow the point, and the rest. *)
Definition read_mantissa (s : string) : option (Z * Z * string) :=
  let '(ip, ni, s1) := read_radix 0 0 s in
  let '(m, nf, s2) := read_fraction ip s1 in
  if ni + nf =? 0 then None else Some (m, nf, s2).

(** The exponent after the mantissa: the letter [mark] in either case,
    an optional sign and decimal digits. Without digits there is no
    exponent, and the letter is not part of the number. *)
Definition read_exponent (mark : ascii) (s : string) : Z :=
  match s with
  | String c s' =>
      if tolower c =? code mark
      then let '(neg, s'') := read_sign s' in
           match read_digits None s'' with
           | Some e => if neg then - e else e
           | None => 0
           end
      else 0
  | EmptyString => 0
  end.
End numeral.

(** A decimal number: the mantissa [m] and the power of ten. *)
Definition read_decimal (s : string) : option (Z * Z) :=
  '(m, nf, s') ← read_mantissa isdigit digit_value 10 s;
  Some (m, read_exponent "e" s' - nf).

(** A hexadecimal number, ["0x"] and a mantissa of hexadecimal digits:
    the mantissa [m] and the power of two. *)
Definition read_hex (s : string) : option (Z * Z) :=
  match s with
  | String c0 (String c1 s') =>
      if Ascii.eqb c0 "0" && (tolower c1 =? code "x")
      then '(m, nf, s'') ← read_mantissa isxdigit xdigit_value 16 s';
           Some (m, read_exponent "p" s'' - 4 * nf)
      else None
  | _ => None
  end.

Section binary_format.
(** An IEEE binary format: [prec] bits of precision, values below
    [2 ^ emax] ([24] and [128] for [float], [53] and [1024] for
    [double]). *)
Variables (prec emax : Z).

(** The number [m * radix ^ e] for [m > 0], as a fraction. *)
Definition fraction_of (radix m e : Z) : Z * Z :=
  if 0 <=? e then (m * radix ^ e, 1) else (m, radix ^ (- e)).

(** [n / d] is halfway between the largest finite number and
    [2 ^ emax], or above: the conversion overflows. *)
Definition overflows (n d : Z) : bool :=
  (2 ^ emax - 2 ^ (emax - prec - 1)) * d <=? n.

(** [n / d], rounded to [prec] bits, is below the smallest normal
    number [2 ^ (2 - emax)]. *)
Definition tiny (n d : Z) : bool :=
  n * 2 ^ (emax + prec - 1) <? (2 ^ (prec + 1) - 1) * d.

(** [n / d] is no multiple of the smallest positive number
    [2 ^ (3 - emax - prec)]. *)
Definition inexact (n d : Z) : bool :=
  negb ((n * 2 ^ (emax + prec - 3)) mod d =? 0).

(** What [strtof] and [strtod] return for the number [m * radix ^ e]
    with the sign [neg]: the nearest number of the format, ties to
    even. They set [errno] to [ERANGE] on overflow, and on underflow
    when the result is not exact; the functions of [<string>] then
    throw [out_of_range]. *)
Definition round_and_return (what : string) (neg : bool)
    (radix m e : Z) : outcome spec_float :=
  if m =? 0 then Return (S754_zero neg)
  else
    let '(n, d) := fraction_of radix m e in
    if overflows n d then Throw (out_of_range what)
    else if tiny n d && inexact n d then Throw (out_of_range what)
    else Return (SFdiv prec emax (S754_finite neg (Z.to_pos n) 0)
                   (S754_finite false (Z.to_pos d) 0)).

(** [std::stof] and [std::stod], through [strtof] and [strtod] in the
    "C" locale: white space, an optional sign, then [inf] or [nan]
    in any case, a hexadecimal or a decimal number; what follows is
    ignored. The sign and the payload of a NaN are not kept. *)
Definition strtod (what : string) (str : string) : outcome spec_float :=
  let '(neg, s) := read_sign (skip_space str) in
  if starts_with_nocase "inf" s then Return (S754_infinity neg)
  else if starts_with_nocase "nan" s then Return S754_nan
  else match read_hex s with
       | Some (m, e) => round_and_return what neg 2 m e
       | None =>
           match read_decimal s with
           | Some (m, e) => round_and_return what neg 10 m e
           | None => Throw (invalid_argument what)
           end
       end.
End binary_format.

Definition stof : string → outcome float := strtod 24 128 "stof".
Definition stod : string → outcome double := strtod 53 1024 "stod".
End std.

(** ** namespace argh *)

Module argh.
Import std.

Definition kMaxParams : Z := 256.

(** [struct ParseError] *)
Record ParseError : Type := {
  desc : cstr;
  source : cstr;
  details : cstr_ref;
}.

(** What the header uses of a value type [T]: its specialisation of the
    template [fromStr<T>], its [operator<<] on a stream ([None] where
    inserting the value is undefined) and its value-initialisation
    [T()]. The unspecialised template [T(s)] is not embedded. *)
Class ValueType (T : Type) : Type := {
  fromStr : cstr -> outcome T;
  put : T -> option string;
  value_init : T;
}.

(** [fromStr<float>(s) = std::stof(s)]; the string argument of [stof] is
    built from [s]. The conversion is an argument of the instance, which
    is used with [std.stof]; what holds of the parser whatever the
    conversion returns is stated for every [stof]. *)
Definition float_ValueType (stof : string -> outcome float)
    (fmt : float -> string) : ValueType float := {|
  fromStr s :=
    match string_of_cstr s with
    | Return s => stof s
    | Throw e => Throw e
    | Undefined => Undefined
    end;
  put v := Some (fmt v);
  value_init := S754_zero false;
|}.

(** [fromStr<double>(s) = std::stod(s)] *)
Definition double_ValueType (stod : string -> outcome double)
    (fmt : double -> string) : ValueType double := {|
  fromStr s :=
    match string_of_cstr s with
    | Return s => stod s
    | Throw e => Throw e
    | Undefined => Undefined
    end;
  put v := Some (fmt v);
  value_init := S754_zero false;
|}.

(** [fromStr<int>(s) = std::stoi(s)] *)
#[global] Instance int_ValueType : ValueType Z := {|
  fromStr s :=
    match string_of_cstr s with
    | Return s => stoi s
    | Throw e => Throw e
    | Undefined => Undefined
    end;
  put v := Some (pretty v);
  value_init := 0;
|}.

(** [fromStr<bool>(s) = true]; a [bool] is printed as 1 or 0. *)
#[global] Instance bool_ValueType : ValueType bool := {|
  fromStr _ := Return true;
  put v := Some (if v then "1" else "0")%string;
  value_init := false;
|}.

(** [fromStr<const char*>(s) = s]. Inserting a null [const char*] into
    a stream is undefined in the standard; libstdc++, which the embedding
    follows as it does for the [what()] texts, inserts no character and
    sets [badbit] on the stream. *)
#[global] Instance cstr_ValueType : ValueType cstr := {|
  fromStr s := Return s;
  put v := Some (default EmptyString v);
  value_init := None;
|}.

(** [fromStr<std::string>(s) = s] *)
#[global] Instance string_ValueType : ValueType string := {|
  fromStr s := string_of_cstr s;
  put v := Some v;
  value_init := EmptyString;
|}.

(** A pointer of type [T*] into the caller's memory [S]. *)
Record Ptr (S T : Type) : Type := {
  load : S -> T;
  store : T -> S -> S;
}.
Global Arguments load {S T} _ _.
Global Arguments store {S T} _ _ _.

(** [template <typename ValueT> class Parameter : public ParamInfo],
    named [ParameterT] here; [key_], [name_] and [isSet_] are the members
    of the base class. *)
Module ParameterT.
Section members.
Context {S ValueT : Type} `{VT : ValueType ValueT}.

Record ParameterT : Type := {
  key_ : ascii;
  name_ : string;
  isSet_ : bool;
  output_ : Ptr S ValueT;
  defVal_ : ValueT;
  help_ : string;
  hasDef_ : bool;
  parseErr_ : ParseError;
}.

(** the constructor with a default value *)
Definition new_default (output : Ptr S ValueT) (key : ascii)
    (name help : string) (defVal : ValueT) : ParameterT := {|
  key_ := key; name_ := name; isSet_ := false;
  output_ := output; defVal_ := defVal; help_ := help;
  hasDef_ := true;
  parseErr_ := {| desc := None; source := None; details := valid None |};
|}.

(** the constructor without a default value *)
Definition new (output : Ptr S ValueT) (key : ascii)
    (name help : string) : ParameterT := {|
  key_ := key; name_ := name; isSet_ := false;
  output_ := output; defVal_ := value_init; help_ := help;
  hasDef_ := false;
  parseErr_ := {| desc := None; source := None; details := valid None |};
|}.

Definition usage (p : ParameterT) : string :=
  String (key_ p) EmptyString.

Definition defaultStr (p : ParameterT) : option string :=
  put (defVal_ p).

Definition help (p : ParameterT) : option string :=
  let fs := " -" +:+ String (key_ p) EmptyString in
  let ns := "  --" +:+ name_ p in
  vs ← (if hasDef_ p
        then d ← defaultStr p; Some ("[default: " +:+ d +:+ "] ")
        else Some EmptyString);
  Some (left_width 5 fs +:+ left_width 14 ns +:+ left_width 24 vs
        +:+ help_ p +:+ endl).

Definition set_parseErr (p : ParameterT) (e : ParseError) : ParameterT := {|
  key_ := key_ p; name_ := name_ p; isSet_ := isSet_ p;
  output_ := output_ p; defVal_ := defVal_ p; help_ := help_ p;
  hasDef_ := hasDef_ p;
  parseErr_ := e;
|}.

(** Returns the [bool] result, the parameter (its [parseErr_] may
    have been assigned) and the caller's memory. The characters of
    [what()] belong to the exception object, which is destroyed when its
    handler is left: on return [details] dangles. *)
Definition parseValue (p : ParameterT) (valStr : cstr) (st : S)
    : option (bool * ParameterT * S) :=
  match fromStr valStr with
  | Return v => Some (true, p, store (output_ p) v st)
  | Throw (invalid_argument what) =>
      Some (false,
            set_parseErr p {| desc := Some "Invalid Argument"%string;
                              source := valStr;
                              details := dangling |},
            st)
  | Throw (out_of_range what) =>
      Some (false,
            set_parseErr p {| desc := Some "Value Out of Range"%string;
                              source := valStr;
                              details := dangling |},
            st)
  | Undefined => None
  end.
End members.
Global Arguments ParameterT S ValueT : clear implicits.
End ParameterT.

(** [class ParamInfo]: a parameter of some value type, seen through the
    virtual functions of the base class. *)
Module ParamInfo.
Inductive ParamInfo (S : Type) : Type :=
| upcast {ValueT : Type} {VT : ValueType ValueT}
    (p : ParameterT.ParameterT S ValueT).
Global Arguments upcast {S ValueT VT} p.

Section virtuals.
Context {S : Type}.

Definition key (i : ParamInfo S) : ascii :=
  match i with upcast p => ParameterT.key_ p end.
Definition isSet (i : ParamInfo S) : bool :=
  match i with upcast p => ParameterT.isSet_ p end.
Definition name (i : ParamInfo S) : string :=
  match i with upcast p => ParameterT.name_ p end.
Definition help (i : ParamInfo S) : option string :=
  match i with upcast p => ParameterT.help p end.
Definition usage (i : ParamInfo S) : string :=
  match i with upcast p => ParameterT.usage p end.
Definition defaultStr (i : ParamInfo S) : option string :=
  match i with upcast p => ParameterT.defaultStr p end.
Definition parseValue (i : ParamInfo S) (val : cstr) (st : S)
    : option (bool * ParamInfo S * S) :=
  match i with
  | upcast p =>
      '(ok, p', st') ← ParameterT.parseValue p val st;
      Some (ok, upcast p', st')
  end.
End virtuals.
End ParamInfo.

Module Parser.
(** [class Parser::ParseError]; its member [param] is never assigned. *)
Record ParseError : Type := {
  desc : string;
  srcArgv : Z;
}.

Section members.
Context {S : Type}.

(** [argc_] is the number of strings of [argv_]. *)
Record Parser : Type := {
  argv_ : list string;
  errors_ : list ParseError;
  params_ : list (option (ParamInfo.ParamInfo S));
}.

Definition argc_ (P : Parser) : Z := Z.of_nat (length (argv_ P)).

(** the constructor: [params_{nullptr}] *)
Definition new (argv : list string) : Parser := {|
  argv_ := argv;
  errors_ := [];
  params_ := replicate (Z.to_nat kMaxParams) None;
|}.

(** [params_[i]], read *)
Definition params_get (P : Parser) (i : Z)
    : option (option (ParamInfo.ParamInfo S)) :=
  if (0 <=? i) && (i <? kMaxParams) then params_ P !! Z.to_nat i
  else None.

(** [params_[i] = param] *)
Definition params_set (P : Parser) (i : Z) (param : ParamInfo.ParamInfo S)
    : option Parser :=
  if (0 <=? i) && (i <? kMaxParams)
  then Some {| argv_ := argv_ P; errors_ := errors_ P;
               params_ := <[Z.to_nat i := Some param]> (params_ P) |}
  else None.

Definition addParam (param : ParamInfo.ParamInfo S) (P : Parser)
    : option Parser :=
  params_set P (int_of_char (ParamInfo.key param)) param.

(** Returns the [bool] result, the parser (the parameter that was
    called is one of its objects), the caller's memory and the text
    written to [std::cout]. *)
Definition parse (P : Parser) (st : S)
    : option (bool * Parser * S * string) :=
  a1 ← index_argv (argv_ P) 1;
  s1 ← a1;
  let c := first_char s1 in
  slot ← params_get P (int_of_char c);
  param ← slot;
  a2 ← index_argv (argv_ P) 2;
  '(ok, param', st') ← ParamInfo.parseValue param a2 st;
  P' ← params_set P (int_of_char c) param';
  let out := if ok : bool
             then " Parsed '" +:+ String c EmptyString +:+ endl
             else EmptyString in
  Some (false, P', st', out).

Definition errors (P : Parser) : option string :=
  if bool_decide (errors_ P = []) then Some EmptyString
  else
    foldl (λ (acc : option string) (e : ParseError),
             out ← acc;
             let out := out +:+ desc e in
             if srcArgv e <? argc_ P
             then a ← index_argv (argv_ P) (srcArgv e);
                  s ← a;
                  Some (out +:+ " @ [" +:+ s +:+ "]")
             else Some out)
          (Some "Error: "%string) (errors_ P).

(** [for (const auto &p : params_) if (p) ...]: the parameters the
    table holds, by increasing index. *)
Definition registered (P : Parser) : list (ParamInfo.ParamInfo S) :=
  omap id (params_ P).
End members.
Global Arguments Parser S : clear implicits.
End Parser.

Module Args.
Section members.
Context {S : Type}.

Record Args : Type := {
  parser_ : Parser.Parser S;
  remainderName_ : string;
  procName_ : string;
}.

(** the constructor: [if (argc) procName_ = argv[0]] *)
Definition new (argv : list string) : Args := {|
  parser_ := Parser.new argv;
  remainderName_ := EmptyString;
  procName_ := default EmptyString (argv !! 0%nat);
|}.

Definition set_parser (a : Args) (P : Parser.Parser S) : Args := {|
  parser_ := P;
  remainderName_ := remainderName_ a;
  procName_ := procName_ a;
|}.

(** [arg] with a default value *)
Definition arg_default {ArgT : Type} `{VT : ValueType ArgT}
    (field : Ptr S ArgT) (key : ascii) (name help : string)
    (defVal : ArgT) (a : Args) : option Args :=
  let p := ParameterT.new_default field key name help defVal in
  P ← Parser.addParam (ParamInfo.upcast p) (parser_ a);
  Some (set_parser a P).

(** [arg] without a default value *)
Definition arg {ArgT : Type} `{VT : ValueType ArgT}
    (field : Ptr S ArgT) (key : ascii) (name help : string)
    (a : Args) : option Args :=
  let p := ParameterT.new field key name help in
  P ← Parser.addParam (ParamInfo.upcast p) (parser_ a);
  Some (set_parser a P).

Definition remainder (name : string) (a : Args) : Args := {|
  parser_ := parser_ a;
  remainderName_ := name;
  procName_ := procName_ a;
|}.

Definition parse (a : Args) (st : S)
    : option (bool * Args * S * string) :=
  '(r, P, st', out) ← Parser.parse (parser_ a) st;
  Some (r, set_parser a P, st', out).

Definition usage (a : Args) : string :=
  "Usage: " +:+ procName_ a +:+ " -"
  +:+ String.concat EmptyString
        (map (λ p, String (ParamInfo.key p) EmptyString)
             (Parser.registered (parser_ a)))
  +:+ " <" +:+ remainderName_ a +:+ ">".

Definition help (a : Args) : option string :=
  lines ← mapM ParamInfo.help (Parser.registered (parser_ a));
  Some (usage a +:+ endl +:+ String.concat EmptyString lines +:+ endl).
End members.
Global Arguments Args S : clear implicits.
End Args.

End argh.

(** ** The example program, main.cpp *)

Module main_cpp.
Import std argh.

Record Options : Type := {
  infile : cstr;
  tmppath : cstr;
  outfile : cstr;
  rate : float;
  debug : bool;
  verbose : bool;
}.

(** The global [gOptions] is zero-initialised. *)
Definition gOptions : Options := {|
  infile := None; tmppath := None; outfile := None;
  rate := S754_zero false; debug := false; verbose := false;
|}.

(** [&gOptions.infile] and the pointers to the other members *)
Definition p_infile : Ptr Options cstr := {|
  load := infile;
  store v o := {| infile := v; tmppath := tmppath o; outfile := outfile o;
                  rate := rate o; debug := debug o; verbose := verbose o |};
|}.
Definition p_tmppath : Ptr Options cstr := {|
  load := tmppath;
  store v o := {| infile := infile o; tmppath := v; outfile := outfile o;
                  rate := rate o; debug := debug o; verbose := verbose o |};
|}.
Definition p_rate : Ptr Options float := {|
  load := rate;
  store v o := {| infile := infile o; tmppath := tmppath o;
                  outfile := outfile o;
                  rate := v; debug := debug o; verbose := verbose o |};
|}.
Definition p_debug : Ptr Options bool := {|
  load := debug;
  store v o := {| infile := infile o; tmppath := tmppath o;
                  outfile := outfile o;
                  rate := rate o; debug := v; verbose := verbose o |};
|}.
Definition p_verbose : Ptr Options bool := {|
  load := verbose;
  store v o := {| infile := infile o; tmppath := tmppath o;
                  outfile := outfile o;
                  rate := rate o; debug := debug o; verbose := v |};
|}.

(** [0.75f], that is 12582912 * 2^-24 *)
Definition f0_75 : float := S754_finite false 12582912 (-24).

Section program.
(** The conversion [std::stof] and the formatting of a [float] by
    [operator<<]: the program is embedded for any two such functions. *)
Variable stof : string -> outcome float.
Variable fmt : float -> string.

Let FT : ValueType float := float_ValueType stof fmt.

(** the calls of [a.arg] and [a.remainder] *)
Definition declare (argv : list string) : option (Args.Args Options) :=
  a ← Args.arg_default p_infile "i" "input" "Specify the input file"
        (Some "./in.foo"%string) (Args.new argv);
  a ← Args.arg_default p_tmppath "t" "temp" "Path for temporary files"
        (Some "/tmp/"%string) a;
  a ← Args.arg_default (VT := FT) p_rate "r" "rate" "Rate of enytopy"
        f0_75 a;
  a ← Args.arg p_debug "d" "debug" "Start in daemon mode" a;
  a ← Args.arg p_verbose "v" "verbose" "Level of verbosity" a;
  Some (Args.remainder "output path" a).

(** Returns the exit status, the final [gOptions] and the text written
    to [std::cout]. *)
Definition declare_and_parse (argv : list string)
    : option (bool * Args.Args Options * Options * string) :=
  a ← declare argv;
  Args.parse a gOptions.

Definition main (argv : list string) : option (Z * Options * string) :=
  '(ok, a, opts, out) ← declare_and_parse argv;
  report ← (if ok : bool then Some EmptyString
            else e ← Parser.errors (Args.parser_ a);
                 h ← Args.help a;
                 Some (e +:+ endl +:+ h +:+ endl));
  Some (0, opts, out +:+ report +:+ "Rate: " +:+ fmt (rate opts) +:+ endl).
End program.
End main_cpp.

(** ** Vocabulary of the statements *)

Module wording.
Import std argh.

Fixpoint all_chars (f : ascii → bool) (s : string) : bool :=
  match s with
  | String c s' => f c && all_chars f s'
  | EmptyString => true
  end.

(** one or more decimal digits *)
Definition digits (s : string) : bool :=
  match s with
  | String _ _ => all_chars isdigit s
  | EmptyString => false
  end.

(** the number a string of digits denotes, digit by position *)
Fixpoint digits_value (s : string) : Z :=
  match s with
  | String c s' =>
      digit_value c * 10 ^ Z.of_nat (String.length s') + digits_value s'
  | EmptyString => 0
  end.

(** A well-formed decimal: an optional sign, then one or more digits,
    and nothing else. *)
Definition well_formed_decimal (s : string) : bool :=
  match s with
  | String c s' =>
      if Ascii.eqb c "-" || Ascii.eqb c "+" then digits s' else digits s
  | EmptyString => false
  end.

Definition decimal_value (s : string) : Z :=
  match s with
  | String c s' =>
      if Ascii.eqb c "-" then - digits_value s'
      else if Ascii.eqb c "+" then digits_value s'
      else digits_value s
  | EmptyString => 0
  end.

(** The token starts, after white space, with a well-formed decimal. *)
Definition has_decimal_prefix (tok : string) : Prop :=
  ∃ ws num rest : string,
    tok = ws +:+ num +:+ rest
    ∧ all_chars isspace ws = true
    ∧ well_formed_decimal num = true.

(** A caller whose memory is one [int], and a parameter writing it. *)
Definition p_int : Ptr Z Z := {| load v := v; store v _ := v |}.
Definition count : ParameterT.ParameterT Z Z :=
  ParameterT.new p_int "n" "count" "A number".

(** *** Numbers with a fraction, as [float] and [double] are written *)

(** An optional sign; [neg] tells a minus. *)
Definition sign_text (sg : string) (neg : bool) : Prop :=
  (sg = EmptyString ∧ neg = false)
  ∨ (sg = "+"%string ∧ neg = false)
  ∨ (sg = "-"%string ∧ neg = true).

(** The fraction of a number: nothing, or a point and the digits [fp]
    (none, maybe) after it. *)
Definition fraction_text (fr fp : string) : Prop :=
  (fr = EmptyString ∧ fp = EmptyString) ∨ fr = "." +:+ fp.

(** The exponent of a number and its value: nothing, or the letter [e]
    in either case and a well-formed decimal. *)
Definition exponent_text (ex : string) (x : Z) : Prop :=
  (ex = EmptyString ∧ x = 0)
  ∨ ∃ (c : ascii) (num : string),
      ex = String c num
      ∧ (c = "e"%char ∨ c = "E"%char)
      ∧ well_formed_decimal num = true
      ∧ x = decimal_value num.

(** A decimal number: an optional sign, digits with an optional point
    before, among or after them, one digit at least, an optional
    exponent, and nothing else. Its value is [m * 10 ^ e], negated when
    [neg]. *)
Definition decimal_number (num : string) (neg : bool) (m e : Z) : Prop :=
  ∃ (sg ip fr fp ex : string) (x : Z),
    num = sg +:+ ip +:+ fr +:+ ex
    ∧ sign_text sg neg
    ∧ fraction_text fr fp
    ∧ digits (ip +:+ fp) = true
    ∧ exponent_text ex x
    ∧ m = digits_value (ip +:+ fp)
    ∧ e = x - Z.of_nat (String.length fp).

(** The characters a decimal number is made of. *)
Definition number_char (c : ascii) : bool :=
  isdigit c || Ascii.eqb c "+" || Ascii.eqb c "-" || Ascii.eqb c "."
  || Ascii.eqb c "e" || Ascii.eqb c "E".

(** [m * 10 ^ e] as a fraction of two integers. *)
Definition numerator (m e : Z) : Z := m * 10 ^ Z.max e 0.
Definition denominator (e : Z) : Z := 10 ^ Z.max (- e) 0.

(** What follows a number does not go on like one: it does not begin
    with a digit, a point, or one of the letters [e] and [x] in either
    case. *)
Definition ends_number (rest : string) : bool :=
  negb (isdigit (first_char rest)
        || Ascii.eqb (first_char rest) "."
        || (tolower (first_char rest) =? code "e")
        || (tolower (first_char rest) =? code "x")).

(** What [std::stof] and [std::stod] convert begins like this: a digit,
    a point and a digit, or [inf] or [nan] in any case. *)
Definition starts_number (body : string) : bool :=
  match body with
  | String c body' =>
      isdigit c || (Ascii.eqb c "." && isdigit (first_char body'))
  | EmptyString => false
  end
  || starts_with_nocase "inf" body
  || starts_with_nocase "nan" body.

(** The token starts, after white space and an optional sign, with
    something [std::stof] and [std::stod] convert. *)
Definition has_float_prefix (tok : string) : Prop :=
  ∃ (ws sg body : string) (neg : bool),
    tok = ws +:+ sg +:+ body
    ∧ all_chars isspace ws = true
    ∧ sign_text sg neg
    ∧ starts_number body = true.

(** The range of [float]. [n / d], for positive [n] and [d], is
    - above it from [2 ^ 128 - 2 ^ 103] on, the middle between the
      largest [float] and [2 ^ 128];
    - below it when it is less than [2 ^ -126 - 2 ^ -151], the least
      number that 24 bits round to the smallest normal [float], and is
      no [float] itself, that is, no multiple of [2 ^ -149]. *)
Definition above_float_range (n d : Z) : bool :=
  (2 ^ 128 - 2 ^ 103) * d <=? n.
Definition below_float_range (n d : Z) : bool :=
  (n * 2 ^ 151 <? (2 ^ 25 - 1) * d) && negb ((n * 2 ^ 149) mod d =? 0).

(** The same for [double]: [2 ^ 1024 - 2 ^ 970], [2 ^ -1022 - 2 ^ -1076]
    and the multiples of [2 ^ -1074]. *)
Definition above_double_range (n d : Z) : bool :=
  (2 ^ 1024 - 2 ^ 970) * d <=? n.
Definition below_double_range (n d : Z) : bool :=
  (n * 2 ^ 1076 <? (2 ^ 54 - 1) * d) && negb ((n * 2 ^ 1074) mod d =? 0).

(** The [float] and the [double] nearest to [n / d], negated when
    [neg]; of two that are equally near, the one with an even
    mantissa. *)
Definition nearest_float (neg : bool) (n d : Z) : float :=
  SFdiv 24 128 (S754_finite neg (Z.to_pos n) 0)
    (S754_finite false (Z.to_pos d) 0).
Definition nearest_double (neg : bool) (n d : Z) : double :=
  SFdiv 53 1024 (S754_finite neg (Z.to_pos n) 0)
    (S754_finite false (Z.to_pos d) 0).

(** The two results of [parseValue] for a token: the value stored and
    [true]; or the error recorded in the parameter, the memory as it
    was, and [false]. *)
Definition converted {S T : Type}
    (p : ParameterT.ParameterT S T) (v : T) (st : S)
    : option (bool * ParameterT.ParameterT S T * S) :=
  Some (true, p, store (ParameterT.output_ p) v st).
Definition rejected {S T : Type}
    (p : ParameterT.ParameterT S T) (description tok : string) (st : S)
    : option (bool * ParameterT.ParameterT S T * S) :=
  Some (false,
        ParameterT.set_parseErr p
          {| desc := Some description;
             source := Some tok;
             details := dangling |},
        st).

(** Callers whose memory is one [float] or one [double], and parameters
    writing it; their values are not printed. *)
Definition no_fmt (v : spec_float) : string := EmptyString.
Definition p_float : Ptr float float := {| load v := v; store v _ := v |}.
Definition ratio : ParameterT.ParameterT float float :=
  ParameterT.new (VT := float_ValueType stof no_fmt)
    p_float "r" "rate" "A rate".
Definition ratio_double : ParameterT.ParameterT double double :=
  ParameterT.new (VT := double_ValueType stod no_fmt)
    p_float "r" "rate" "A rate".

Section registry.
Context {S : Type}.

(** [addParam] for each parameter of a list, in the order of the list *)
Fixpoint addParams (ps : list (ParamInfo.ParamInfo S))
    (P : Parser.Parser S) : option (Parser.Parser S) :=
  match ps with
  | [] => Some P
  | p :: ps => P' ← Parser.addParam p P; addParams ps P'
  end.

(** [q] is, in [ps], the last parameter with its key. *)
Definition last_of_key (ps : list (ParamInfo.ParamInfo S))
    (q : ParamInfo.ParamInfo S) : Prop :=
  ∃ l1 l2,
    ps = l1 ++ q :: l2
    ∧ Forall (λ r, ParamInfo.key r ≠ ParamInfo.key q) l2.

(** The table has [kMaxParams] entries, and the entry at an index
    has this index as its key. *)
Definition table_ok (P : Parser.Parser S) : Prop :=
  length (Parser.params_ P) = Z.to_nat kMaxParams
  ∧ ∀ (i : nat) (q : ParamInfo.ParamInfo S),
      Parser.params_ P !! i = Some (Some q) →
      int_of_char (ParamInfo.key q) = Z.of_nat i.

Definition key_lt (p q : ParamInfo.ParamInfo S) : Prop :=
  int_of_char (ParamInfo.key p) < int_of_char (ParamInfo.key q).

Definition hasDef (i : ParamInfo.ParamInfo S) : bool :=
  match i with ParamInfo.upcast p => ParameterT.hasDef_ p end.

Definition help_text (i : ParamInfo.ParamInfo S) : string :=
  match i with ParamInfo.upcast p => ParameterT.help_ p end.

(** One line of the help text: the key in a column of 5, the long name
    in a column of 14, the default in a column of 24 (blank without a
    default), the help text. *)
Definition help_line (q : ParamInfo.ParamInfo S) (line : string)
    : Prop :=
  ∃ v : string,
    (if hasDef q
     then ∃ d, ParamInfo.defaultStr q = Some d
               ∧ v = "[default: " +:+ d +:+ "] "
     else v = EmptyString)
    ∧ line = left_width 5 (" -" +:+ String (ParamInfo.key q) EmptyString)
             +:+ left_width 14 ("  --" +:+ ParamInfo.name q)
             +:+ left_width 24 v
             +:+ help_text q +:+ endl.

(** The claims on registration, as they are worded. *)
Definition rejects_duplicates : Prop :=
  ∀ (P : Parser.Parser S) (p q : ParamInfo.ParamInfo S),
    p ∈ Parser.registered P →
    ParamInfo.key q = ParamInfo.key p
    ∨ ParamInfo.name q = ParamInfo.name p →
    Parser.addParam q P = None.

Definition unique_when_parsing : Prop :=
  ∀ (ps : list (ParamInfo.ParamInfo S)) (argv : list string)
    (P : Parser.Parser S),
    addParams ps (Parser.new argv) = Some P →
    NoDup (ParamInfo.key <$> Parser.registered P)
    ∧ NoDup (ParamInfo.name <$> Parser.registered P).

(** The help text lists the parameters [ps] in this order. *)
Definition help_in_order (ps : list (ParamInfo.ParamInfo S))
    (a : Args.Args S) : Prop :=
  ∃ lines,
    mapM ParamInfo.help ps = Some lines
    ∧ Args.help a
      = Some (Args.usage a +:+ endl +:+ String.concat EmptyString lines
              +:+ endl).
End registry.

(** Parameters of the example program, and parameters that collide with
    them. *)
Definition par_input : ParamInfo.ParamInfo main_cpp.Options :=
  ParamInfo.upcast
    (ParameterT.new_default main_cpp.p_infile "i" "input"
       "Specify the input file" (Some "./in.foo"%string)).
Definition par_debug : ParamInfo.ParamInfo main_cpp.Options :=
  ParamInfo.upcast
    (ParameterT.new main_cpp.p_debug "d" "debug" "Start in daemon mode").
Definition par_same_key : ParamInfo.ParamInfo main_cpp.Options :=
  ParamInfo.upcast
    (ParameterT.new main_cpp.p_verbose "d" "verbose" "Level of verbosity").
Definition par_same_name : ParamInfo.ParamInfo main_cpp.Options :=
  ParamInfo.upcast
    (ParameterT.new main_cpp.p_verbose "v" "debug" "Level of verbosity").

(** [a.arg(&gOptions.infile, 'i', ...); a.arg(&gOptions.debug, 'd', ...);
    a.remainder("output path")] *)
Definition input_then_debug : option (Args.Args main_cpp.Options) :=
  a ← Args.arg_default main_cpp.p_infile "i" "input"
        "Specify the input file" (Some "./in.foo"%string)
        (Args.new ["./foo"%string]);
  a ← Args.arg main_cpp.p_debug "d" "debug" "Start in daemon mode" a;
  Some (Args.remainder "output path" a).

(** The parser [P] given another argument vector. *)
Definition with_argv {S : Type} (P : Parser.Parser S) (argv : list string)
    : Parser.Parser S := {|
  Parser.argv_ := argv;
  Parser.errors_ := Parser.errors_ P;
  Parser.params_ := Parser.params_ P;
|}.

(** Two parameters with the same key and the same help line. *)
Definition same_declaration {S : Type} (q q' : ParamInfo.ParamInfo S)
    : Prop :=
  ParamInfo.key q' = ParamInfo.key q ∧ ParamInfo.help q' = ParamInfo.help q.

(** What [errors] appends for one error: the description, and the
    argument the error points to when there is one. *)
Definition render_error (argv : list string) (e : Parser.ParseError)
    : string :=
  Parser.desc e
  +:+ (if Parser.srcArgv e <? Z.of_nat (length argv)
       then " @ [" +:+ default EmptyString
                         (argv !! Z.to_nat (Parser.srcArgv e)) +:+ "]"
       else EmptyString).

(** A parser that knows the parameter [count], and one whose [count] has
    a default. *)
Definition count_parser (argv : list string) : Parser.Parser Z :=
  default (Parser.new argv)
    (Parser.addParam (ParamInfo.upcast count) (Parser.new argv)).
Definition count_default : ParameterT.ParameterT Z Z :=
  ParameterT.new_default p_int "n" "count" "A number" (-42).

(** A parser with two recorded errors, the second one pointing past the
    arguments. *)
Definition parser_with_errors : Parser.Parser Z := {|
  Parser.argv_ := ["prog"; "-x"]%string;
  Parser.errors_ := [ {| Parser.desc := "Unknown key"; Parser.srcArgv := 1 |};
                      {| Parser.desc := "Missing value"; Parser.srcArgv := 2 |} ];
  Parser.params_ := replicate (Z.to_nat kMaxParams) None;
|}.

(** The parameters [main] declares, in the order of the calls. *)
Definition main_params (stof : string → outcome float)
    (fmt : float → string) : list (ParamInfo.ParamInfo main_cpp.Options) :=
  [ ParamInfo.upcast
      (ParameterT.new_default main_cpp.p_infile "i" "input"
         "Specify the input file" (Some "./in.foo"%string));
    ParamInfo.upcast
      (ParameterT.new_default main_cpp.p_tmppath "t" "temp"
         "Path for temporary files" (Some "/tmp/"%string));
    ParamInfo.upcast (VT := float_ValueType stof fmt)
      (ParameterT.new_default main_cpp.p_rate "r" "rate" "Rate of enytopy"
         main_cpp.f0_75);
    ParamInfo.upcast
      (ParameterT.new main_cpp.p_debug "d" "debug" "Start in daemon mode");
    ParamInfo.upcast
      (ParameterT.new main_cpp.p_verbose "v" "verbose"
         "Level of verbosity") ].
(** A session around [count_parser]. *)
Definition count_args (argv : list string) : Args.Args Z :=
  Args.set_parser (Args.new argv) (count_parser argv).

(** [n] blanks, the padding of a column *)
Fixpoint blanks (n : nat) : string :=
  match n with
  | O => EmptyString
  | Datatypes.S n => String " " (blanks n)
  end.
End wording.

(** * Properties *)

Import std argh wording.

(** ** [std::stoi] *)

Section strtol.
Implicit Types (s ws ds rest : string) (c : ascii).

Lemma string_app_cons c s rest : String c s +:+ rest = String c (s +:+ rest).
Proof. reflexivity. Qed.

Lemma string_app_nil s : EmptyString +:+ s = s.
Proof. reflexivity. Qed.

Lemma digit_not_space c : isdigit c = true → isspace c = false.
Proof. unfold isdigit, isspace. lia. Qed.

Lemma digit_not_sign c :
  isdigit c = true → Ascii.eqb c "-" = false ∧ Ascii.eqb c "+" = false.
Proof.
  intros H.
  split; apply Ascii.eqb_neq; intros ->; vm_compute in H; discriminate.
Qed.

Lemma sign_not_space c :
  Ascii.eqb c "-" || Ascii.eqb c "+" = true → isspace c = false.
Proof.
  intros [H|H]%orb_true_iff; apply Ascii.eqb_eq in H; subst; reflexivity.
Qed.

Lemma skip_space_app ws s :
  all_chars isspace ws = true → skip_space (ws +:+ s) = skip_space s.
Proof.
  induction ws as [|c ws IH]; [done|].
  rewrite string_app_cons. simpl.
  intros [Hc Hws]%andb_true_iff. rewrite Hc. auto.
Qed.

Lemma skip_space_stop s : isspace (first_char s) = false → skip_space s = s.
Proof. destruct s as [|c s]; simpl; [done|]. by intros ->. Qed.

Lemma skip_space_split s :
  ∃ ws, s = ws +:+ skip_space s ∧ all_chars isspace ws = true.
Proof.
  induction s as [|c s (ws & Heq & Hws)]; simpl.
  - by exists EmptyString.
  - destruct (isspace c) eqn:Hc.
    + exists (String c ws). rewrite string_app_cons, <- Heq. simpl.
      by rewrite Hc.
    + by exists EmptyString.
Qed.

Lemma read_digits_stop acc rest :
  isdigit (first_char rest) = false → read_digits acc rest = acc.
Proof. destruct rest as [|c rest]; simpl; [done|]. by intros ->. Qed.

Lemma read_digits_app acc c ds rest :
  all_chars isdigit (String c ds) = true →
  isdigit (first_char rest) = false →
  read_digits acc (String c ds +:+ rest)
  = Some (default 0 acc * 10 ^ Z.of_nat (String.length (String c ds))
          + digits_value (String c ds)).
Proof.
  revert acc c. induction ds as [|d ds IH]; intros acc c Hds Hrest.
  - simpl in *. apply andb_true_iff in Hds as [-> _].
    rewrite read_digits_stop by done. f_equal. lia.
  - change (all_chars isdigit (String c (String d ds)))
      with (isdigit c && all_chars isdigit (String d ds)) in Hds.
    apply andb_true_iff in Hds as [Hc Hds].
    change (read_digits acc (String c (String d ds) +:+ rest))
      with (if isdigit c
            then read_digits (Some (10 * default 0 acc + digit_value c))
                   (String d ds +:+ rest)
            else acc).
    rewrite Hc, IH by done.
    f_equal.
    change (digits_value (String c (String d ds)))
      with (digit_value c * 10 ^ Z.of_nat (String.length (String d ds))
            + digits_value (String d ds)).
    change (String.length (String c (String d ds)))
      with (Datatypes.S (String.length (String d ds))).
    rewrite Nat2Z.inj_succ, Z.pow_succ_r by lia.
    simpl default. ring.
Qed.

Lemma read_digits_first s n :
  read_digits None s = Some n →
  ∃ c s', s = String c s' ∧ isdigit c = true.
Proof.
  destruct s as [|c s']; simpl; [done|].
  destruct (isdigit c) eqn:Hc; [eauto | done].
Qed.

Lemma string_app_assoc s1 s2 s3 : (s1 +:+ s2) +:+ s3 = s1 +:+ s2 +:+ s3.
Proof.
  induction s1 as [|c s1 IH]; [done|].
  by rewrite !string_app_cons, IH.
Qed.

Lemma string_app_nil_r (s : string) : s +:+ EmptyString = s.
Proof. induction s as [|c s IH]; [done|]. by rewrite string_app_cons, IH. Qed.

Lemma string_length_app (s t : string) :
  String.length (s +:+ t) = (String.length s + String.length t)%nat.
Proof.
  induction s as [|c s IH]; [done|]. rewrite string_app_cons. simpl.
  by rewrite IH.
Qed.

Lemma all_chars_app f s1 s2 :
  all_chars f (s1 +:+ s2) = all_chars f s1 && all_chars f s2.
Proof.
  induction s1 as [|c s1 IH]; [done|].
  rewrite string_app_cons. simpl. by rewrite IH, andb_assoc.
Qed.

Lemma digits_app s ds :
  digits s = true → all_chars isdigit ds = true → digits (s +:+ ds) = true.
Proof.
  destruct s as [|c s]; [done|]. intros Hs Hds.
  rewrite string_app_cons. unfold digits in *.
  by rewrite <- string_app_cons, all_chars_app, Hs, Hds.
Qed.

Lemma digits_span s :
  ∃ ds rest,
    s = ds +:+ rest
    ∧ all_chars isdigit ds = true
    ∧ isdigit (first_char rest) = false.
Proof.
  induction s as [|c s (ds & rest & Heq & Hds & Hrest)].
  - by exists EmptyString, EmptyString.
  - destruct (isdigit c) eqn:Hc.
    + exists (String c ds), rest. rewrite string_app_cons, <- Heq.
      simpl. by rewrite Hc, Hds.
    + by exists EmptyString, (String c s).
Qed.

Lemma well_formed_decimal_app num ds :
  well_formed_decimal num = true →
  all_chars isdigit ds = true →
  well_formed_decimal (num +:+ ds) = true.
Proof.
  destruct num as [|c num]; [done|]. intros Hnum Hds.
  rewrite string_app_cons. unfold well_formed_decimal in *.
  destruct (Ascii.eqb c "-" || Ascii.eqb c "+").
  - by apply digits_app.
  - rewrite <- string_app_cons. by apply digits_app.
Qed.

(** A decimal at the start of a string can be taken with all its digits. *)
Lemma has_decimal_prefix_maximal s :
  has_decimal_prefix s →
  ∃ ws num rest,
    s = ws +:+ num +:+ rest
    ∧ all_chars isspace ws = true
    ∧ well_formed_decimal num = true
    ∧ isdigit (first_char rest) = false.
Proof.
  intros (ws & num & rest & -> & Hws & Hnum).
  destruct (digits_span rest) as (ds & rest' & -> & Hds & Hrest).
  exists ws, (num +:+ ds), rest'.
  rewrite string_app_assoc. do 2 (split; [done|]).
  split; [by apply well_formed_decimal_app | done].
Qed.
(** [stoi] reads the decimal a string starts with, and no more. *)
Lemma stoi_decimal_prefix ws num rest :
  all_chars isspace ws = true →
  well_formed_decimal num = true →
  isdigit (first_char rest) = false →
  stoi (ws +:+ num +:+ rest)
  = if in_int_range (decimal_value num)
    then Return (decimal_value num)
    else Throw (out_of_range "stoi").
Proof.
  intros Hws Hnum Hrest. unfold stoi. rewrite skip_space_app by done.
  destruct num as [|c num]; [done|]. simpl in Hnum.
  destruct (Ascii.eqb c "-" || Ascii.eqb c "+") eqn:Hsign.
  - rewrite skip_space_stop by (by apply sign_not_space).
    destruct num as [|d ds]; [done|].
    rewrite string_app_cons. unfold read_sign, decimal_value.
    destruct (Ascii.eqb c "-") eqn:Hminus.
    + rewrite read_digits_app by done. simpl default.
      by rewrite Z.mul_0_l, Z.add_0_l.
    + simpl in Hsign. rewrite Hsign.
      rewrite read_digits_app by done. simpl default.
      by rewrite Z.mul_0_l, Z.add_0_l.
  - assert (isdigit c = true) as Hc
      by (simpl in Hnum; by apply andb_true_iff in Hnum as [? _]).
    rewrite skip_space_stop by (by apply digit_not_space).
    destruct (digit_not_sign c Hc) as [Hm Hp].
    unfold decimal_value. rewrite Hm, Hp.
    rewrite string_app_cons. unfold read_sign. rewrite Hm, Hp.
    rewrite <- string_app_cons, read_digits_app by done. simpl default.
    by rewrite Z.mul_0_l, Z.add_0_l.
Qed.

(** [stoi] throws [invalid_argument], or the string starts with a
    decimal. *)
Lemma stoi_invalid_or_prefix s :
  stoi s = Throw (invalid_argument "stoi") ∨ has_decimal_prefix s.
Proof.
  unfold stoi.
  destruct (skip_space_split s) as (ws & Heq & Hws).
  destruct (read_sign (skip_space s)) as [neg body] eqn:Hsign.
  destruct (read_digits None body) as [n|] eqn:Hdigits; [right | by left].
  apply read_digits_first in Hdigits as (d & s' & -> & Hd).
  destruct (digit_not_sign d Hd) as [Hm Hp].
  exists ws. unfold read_sign in Hsign.
  destruct (skip_space s) as [|c b] eqn:Hb; [done|].
  destruct (Ascii.eqb c "-") eqn:Hcm;
    [|destruct (Ascii.eqb c "+") eqn:Hcp]; simplify_eq.
  - exists (String c (String d EmptyString)), s'.
    repeat split; [done..|]. simpl. by rewrite Hcm, Hd.
  - exists (String c (String d EmptyString)), s'.
    repeat split; [done..|]. simpl. by rewrite Hcm, Hcp, Hd.
  - exists (String d EmptyString), s'.
    repeat split; [done..|]. simpl. by rewrite Hm, Hp, Hd.
Qed.

Lemma stoi_no_decimal_prefix s :
  ¬ has_decimal_prefix s → stoi s = Throw (invalid_argument "stoi").
Proof. by destruct (stoi_invalid_or_prefix s). Qed.

Lemma has_decimal_prefix_dec s :
  has_decimal_prefix s ∨ ¬ has_decimal_prefix s.
Proof.
  destruct (stoi_invalid_or_prefix s) as [Hinvalid|]; [right | by left].
  intros (ws & num & rest & -> & Hws & Hnum & Hrest)%has_decimal_prefix_maximal.
  rewrite stoi_decimal_prefix in Hinvalid by done.
  by destruct (in_int_range _).
Qed.
End strtol.

Example stoi_plain : stoi "12" = Return 12.
Proof. reflexivity. Qed.

Example stoi_trailing : stoi "  -12abc" = Return (-12).
Proof. reflexivity. Qed.

Example stoi_no_digit : stoi "+-5" = Throw (invalid_argument "stoi").
Proof. reflexivity. Qed.

Example stoi_INT_MIN : stoi "-2147483648" = Return INT_MIN.
Proof. reflexivity. Qed.

Example stoi_above_INT_MAX : stoi "2147483648" = Throw (out_of_range "stoi").
Proof. reflexivity. Qed.

(** ** Character codes *)

Lemma code_range c : 0 ≤ code c < 256.
Proof.
  unfold code. pose proof (N_ascii_bounded c). lia.
Qed.

Lemma code_inj c d : code c = code d → c = d.
Proof.
  unfold code. intros H%(inj Z.of_N).
  rewrite <- (ascii_N_embedding c), <- (ascii_N_embedding d). by f_equal.
Qed.

(** ** [std::stof] and [std::stod] *)

Section strtod_properties.
Implicit Types (s ws ds ip fp fr ex rest body : string) (c : ascii).

Lemma all_chars_impl (f g : ascii → bool) s :
  (∀ c, f c = true → g c = true) →
  all_chars f s = true → all_chars g s = true.
Proof.
  intros Hfg. induction s as [|c s IH]; [done|]. simpl.
  intros [Hc Hs]%andb_true_iff. by rewrite (Hfg c Hc), IH.
Qed.

Lemma digits_value_app s t :
  digits_value (s +:+ t)
  = digits_value s * 10 ^ Z.of_nat (String.length t) + digits_value t.
Proof.
  induction s as [|c s IH]; [rewrite string_app_nil; simpl; lia|].
  rewrite string_app_cons.
  change (digits_value (String c (s +:+ t)))
    with (digit_value c * 10 ^ Z.of_nat (String.length (s +:+ t))
          + digits_value (s +:+ t)).
  change (digits_value (String c s))
    with (digit_value c * 10 ^ Z.of_nat (String.length s) + digits_value s).
  rewrite IH, string_length_app, Nat2Z.inj_add, Z.pow_add_r by lia. ring.
Qed.

Section radix.
Variables (isd : ascii → bool) (val : ascii → Z) (radix : Z).

Lemma read_radix_stop acc cnt rest :
  isd (first_char rest) = false →
  read_radix isd val radix acc cnt rest = (acc, cnt, rest).
Proof. destruct rest as [|c rest]; simpl; [done|]. by intros ->. Qed.

Lemma read_radix_count acc cnt s a n r :
  read_radix isd val radix acc cnt s = (a, n, r) → cnt ≤ n.
Proof.
  revert acc cnt. induction s as [|c s IH]; intros acc cnt; simpl.
  - intros [= _ <- _]. lia.
  - destruct (isd c); [|intros [= _ <- _]; lia].
    intros H%IH. lia.
Qed.

Lemma read_radix_first acc cnt s a n r :
  read_radix isd val radix acc cnt s = (a, n, r) →
  n ≠ cnt → isd (first_char s) = true.
Proof.
  destruct s as [|c s]; simpl.
  - by intros [= _ <- _].
  - destruct (isd c); [done|]. by intros [= _ <- _].
Qed.

Lemma read_radix_cons acc cnt c s :
  read_radix isd val radix acc cnt (String c s)
  = if isd c then read_radix isd val radix (radix * acc + val c) (cnt + 1) s
    else (acc, cnt, String c s).
Proof. reflexivity. Qed.

Lemma read_mantissa_eq s :
  read_mantissa isd val radix s
  = let '(a, ni, s1) := read_radix isd val radix 0 0 s in
    let '(m, nf, s2) := read_fraction isd val radix a s1 in
    if ni + nf =? 0 then None else Some (m, nf, s2).
Proof. reflexivity. Qed.

Lemma read_fraction_count a s1 m nf s2 :
  read_fraction isd val radix a s1 = (m, nf, s2) → 0 ≤ nf.
Proof.
  unfold read_fraction. destruct s1 as [|d s1']; [by intros [= _ <- _]|].
  destruct (Ascii.eqb d "."); [|by intros [= _ <- _]].
  apply read_radix_count.
Qed.

Lemma read_mantissa_digit c s :
  isd c = true → is_Some (read_mantissa isd val radix (String c s)).
Proof.
  intros Hc. rewrite read_mantissa_eq, read_radix_cons, Hc.
  destruct (read_radix _ _ _ _ _ s) as [[a ni] s1] eqn:Ha.
  apply read_radix_count in Ha.
  destruct (read_fraction _ _ _ a s1) as [[m nf] s2] eqn:Hm.
  apply read_fraction_count in Hm.
  replace (ni + nf =? 0) with false by lia. done.
Qed.

Lemma read_mantissa_point c s :
  isd "." = false →
  isd c = true →
  is_Some (read_mantissa isd val radix (String "." (String c s))).
Proof.
  intros Hpoint Hc. rewrite read_mantissa_eq, read_radix_cons, Hpoint.
  unfold read_fraction. simpl Ascii.eqb. cbv iota.
  rewrite read_radix_cons, Hc.
  destruct (read_radix _ _ _ _ _ s) as [[m nf] s2] eqn:Hm.
  apply read_radix_count in Hm.
  replace (0 + nf =? 0) with false by lia. done.
Qed.

Lemma read_mantissa_first s :
  is_Some (read_mantissa isd val radix s) →
  isd (first_char s) = true
  ∨ ∃ s', s = String "." s' ∧ isd (first_char s') = true.
Proof.
  rewrite read_mantissa_eq.
  destruct s as [|c s]; [by intros [? [=]]|].
  simpl first_char. rewrite read_radix_cons.
  destruct (isd c) eqn:Hc; [by left|]. right.
  unfold read_fraction in H. destruct (Ascii.eqb c ".") eqn:Hcp.
  - apply Ascii.eqb_eq in Hcp as ->. exists s. split; [done|].
    destruct (read_radix _ _ _ 0 0 s) as [[m nf] s2] eqn:Hm.
    destruct (0 + nf =? 0) eqn:Hnf; [by destruct H|].
    eapply read_radix_first; [exact Hm | lia].
  - simpl in H. by destruct H.
Qed.
End radix.

Lemma eqb_code c d : Ascii.eqb c d = (code c =? code d).
Proof.
  destruct (Ascii.eqb_spec c d) as [->|Hne]; [by rewrite Z.eqb_refl|].
  symmetry. apply Z.eqb_neq. by intros H%code_inj.
Qed.

Lemma tolower_digit c : isdigit c = true → tolower c = code c.
Proof.
  unfold isdigit, tolower. intros H.
  replace ((65 <=? code c) && (code c <=? 90)) with false by lia. done.
Qed.

Lemma read_radix_digits acc cnt ds rest :
  all_chars isdigit ds = true →
  isdigit (first_char rest) = false →
  read_radix isdigit digit_value 10 acc cnt (ds +:+ rest)
  = (acc * 10 ^ Z.of_nat (String.length ds) + digits_value ds,
     cnt + Z.of_nat (String.length ds), rest).
Proof.
  intros Hds Hrest. revert acc cnt.
  induction ds as [|d ds IH]; intros acc cnt.
  - rewrite string_app_nil, read_radix_stop by done. simpl.
    by rewrite Z.mul_1_r, !Z.add_0_r.
  - simpl in Hds. apply andb_true_iff in Hds as [Hd Hds].
    rewrite string_app_cons, read_radix_cons, Hd, IH by done.
    change (digits_value (String d ds))
      with (digit_value d * 10 ^ Z.of_nat (String.length ds)
            + digits_value ds).
    change (String.length (String d ds)) with (Datatypes.S (String.length ds)).
    rewrite Nat2Z.inj_succ, Z.pow_succ_r by lia.
    assert (∀ a a' b b' : Z, a = a' → b = b' → (a, b, rest) = (a', b', rest))
      as Heq by (by intros ???? -> ->).
    apply Heq; [ring | lia].
Qed.

Lemma digits_all_chars s : digits s = true → all_chars isdigit s = true.
Proof. by destruct s. Qed.

Lemma digits_length s : digits s = true → (0 < String.length s)%nat.
Proof. destruct s; [done|]. simpl. lia. Qed.

Lemma read_mantissa_decimal ip fr fp rest :
  fraction_text fr fp →
  digits (ip +:+ fp) = true →
  isdigit (first_char rest) = false →
  (fr = EmptyString → Ascii.eqb (first_char rest) "." = false) →
  read_mantissa isdigit digit_value 10 (ip +:+ fr +:+ rest)
  = Some (digits_value (ip +:+ fp), Z.of_nat (String.length fp), rest).
Proof.
  intros Hfr Hdigits Hrest Hpoint.
  pose proof (digits_length _ Hdigits) as Hlen.
  rewrite string_length_app in Hlen.
  apply digits_all_chars in Hdigits. rewrite all_chars_app in Hdigits.
  apply andb_true_iff in Hdigits as [Hip Hfp].
  rewrite read_mantissa_eq.
  destruct Hfr as [[-> ->] | ->].
  - rewrite string_app_nil, read_radix_digits by done.
    assert (read_fraction isdigit digit_value 10
              (0 * 10 ^ Z.of_nat (String.length ip) + digits_value ip) rest
            = (0 * 10 ^ Z.of_nat (String.length ip) + digits_value ip,
               0, rest)) as ->.
    { unfold read_fraction. destruct rest as [|c rest]; [done|].
      simpl in Hpoint. by rewrite Hpoint. }
    simpl in Hlen.
    replace (_ =? 0) with false by lia.
    by rewrite string_app_nil_r.
  - change ("." +:+ fp) with (String "." fp).
    rewrite read_radix_digits, string_app_cons by done.
    unfold read_fraction. simpl Ascii.eqb. cbv iota.
    rewrite read_radix_digits by done.
    replace (_ =? 0) with false by lia.
    by rewrite digits_value_app, Z.mul_0_l, !Z.add_0_l.
Qed.

Lemma read_signed_decimal num rest :
  well_formed_decimal num = true →
  isdigit (first_char rest) = false →
  (let '(neg, s) := read_sign (num +:+ rest) in
   match read_digits None s with
   | Some e => if neg : bool then - e else e
   | None => 0
   end) = decimal_value num.
Proof.
  intros Hnum Hrest. destruct num as [|c num]; [done|]. simpl in Hnum.
  destruct (Ascii.eqb c "-" || Ascii.eqb c "+") eqn:Hsign.
  - destruct num as [|d ds]; [done|].
    rewrite string_app_cons. unfold read_sign, decimal_value.
    destruct (Ascii.eqb c "-") eqn:Hminus.
    + rewrite read_digits_app by done. simpl default.
      by rewrite Z.mul_0_l, Z.add_0_l.
    + simpl in Hsign. rewrite Hsign.
      rewrite read_digits_app by done. simpl default.
      by rewrite Z.mul_0_l, Z.add_0_l.
  - assert (isdigit c = true) as Hc
      by (simpl in Hnum; by apply andb_true_iff in Hnum as [? _]).
    destruct (digit_not_sign c Hc) as [Hm Hp].
    unfold decimal_value. rewrite Hm, Hp.
    rewrite string_app_cons. unfold read_sign. rewrite Hm, Hp.
    rewrite <- string_app_cons, read_digits_app by done. simpl default.
    by rewrite Z.mul_0_l, Z.add_0_l.
Qed.

Lemma read_exponent_cons mark c s :
  read_exponent mark (String c s)
  = if tolower c =? code mark
    then let '(neg, s'') := read_sign s in
         match read_digits None s'' with
         | Some e => if neg : bool then - e else e
         | None => 0
         end
    else 0.
Proof. reflexivity. Qed.

Lemma read_exponent_decimal ex x rest :
  exponent_text ex x →
  isdigit (first_char rest) = false →
  (tolower (first_char rest) =? code "e") = false →
  read_exponent "e" (ex +:+ rest) = x.
Proof.
  intros [[-> ->] | (c & num & -> & Hc & Hnum & ->)] Hrest He.
  - rewrite string_app_nil. destruct rest as [|c rest]; [done|].
    simpl in He. by rewrite read_exponent_cons, He.
  - rewrite string_app_cons, read_exponent_cons.
    assert ((tolower c =? code "e") = true) as ->
      by (by destruct Hc as [-> | ->]).
    by apply read_signed_decimal.
Qed.

Lemma ends_number_spec rest :
  ends_number rest = true →
  isdigit (first_char rest) = false
  ∧ Ascii.eqb (first_char rest) "." = false
  ∧ (tolower (first_char rest) =? code "e") = false
  ∧ (tolower (first_char rest) =? code "x") = false.
Proof.
  unfold ends_number. intros H%negb_true_iff.
  apply orb_false_iff in H as [H Hx].
  apply orb_false_iff in H as [H He].
  by apply orb_false_iff in H as [Hd Hp].
Qed.

(** The body of a decimal number and what follows it: the first character
    is a digit or a point, and after a first digit there is no [x]. *)
Lemma decimal_body_first ip fr fp ex x rest :
  fraction_text fr fp →
  digits (ip +:+ fp) = true →
  exponent_text ex x →
  ends_number rest = true →
  ∃ c s,
    ip +:+ fr +:+ ex +:+ rest = String c s
    ∧ (isdigit c = true ∨ c = "."%char)
    ∧ (tolower (first_char s) =? code "x") = false.
Proof.
  intros Hfr Hdigits Hex (Hd & Hp & He & Hx)%ends_number_spec.
  pose proof (digits_length _ Hdigits) as Hlen.
  rewrite string_length_app in Hlen.
  apply digits_all_chars in Hdigits. rewrite all_chars_app in Hdigits.
  apply andb_true_iff in Hdigits as [Hip Hfp].
  assert ((tolower (first_char (ex +:+ rest)) =? code "x") = false) as Hexr.
  { destruct Hex as [[-> ->] | (c & num & -> & Hc & _)]; [done|].
    rewrite string_app_cons. simpl first_char.
    by destruct Hc as [-> | ->]. }
  assert (∀ ds s, all_chars isdigit ds = true →
            (tolower (first_char s) =? code "x") = false →
            (tolower (first_char (ds +:+ s)) =? code "x") = false) as Hds.
  { intros [|d ds] s Hall Hs; [done|]. rewrite string_app_cons.
    simpl in *. apply andb_true_iff in Hall as [Hdd _].
    rewrite tolower_digit by done. unfold isdigit in Hdd.
    change (code "x") with 120. lia. }
  destruct ip as [|c ip].
  - destruct Hfr as [[-> ->] | ->]; [simpl in Hlen; lia|].
    rewrite string_app_nil. exists "."%char, (fp +:+ ex +:+ rest).
    split; [done|]. split; [by right|]. by apply Hds.
  - exists c, (ip +:+ fr +:+ ex +:+ rest). split; [done|].
    simpl in Hip. apply andb_true_iff in Hip as [Hc Hip].
    split; [by left|]. apply Hds; [done|].
    destruct Hfr as [[-> ->] | ->]; [done|].
    by rewrite string_app_cons.
Qed.

Lemma read_hex_None c s :
  (tolower (first_char s) =? code "x") = false →
  read_hex (String c s) = None.
Proof.
  destruct s as [|c1 s]; [done|]. simpl first_char. intros Hx.
  unfold read_hex. by rewrite Hx, andb_false_r.
Qed.

Lemma not_word_at_number c s :
  isdigit c = true ∨ c = "."%char →
  starts_with_nocase "inf" (String c s) = false
  ∧ starts_with_nocase "nan" (String c s) = false.
Proof.
  intros [Hc | ->]; [|done]. simpl. rewrite tolower_digit by done.
  unfold isdigit in Hc.
  change (code "i") with 105. change (code "n") with 110.
  by replace (code c =? 105) with false by lia;
     replace (code c =? 110) with false by lia.
Qed.

Lemma number_start_not_space_sign c :
  isdigit c = true ∨ c = "."%char
  ∨ tolower c = code "i" ∨ tolower c = code "n" →
  isspace c = false ∧ Ascii.eqb c "-" = false ∧ Ascii.eqb c "+" = false.
Proof.
  rewrite !eqb_code. unfold isdigit, isspace, tolower.
  change (code "-") with 45. change (code "+") with 43.
  change (code "i") with 105. change (code "n") with 110.
  intros [H | [-> | [H | H]]]; [| done | |];
    destruct (_ && _) eqn:E in H; lia.
Qed.

Lemma read_sign_text sg neg body :
  sign_text sg neg →
  Ascii.eqb (first_char body) "-" = false →
  Ascii.eqb (first_char body) "+" = false →
  read_sign (sg +:+ body) = (neg, body).
Proof.
  intros [[-> ->] | [[-> ->] | [-> ->]]] Hm Hp; [|done..].
  rewrite string_app_nil. destruct body as [|c body]; [done|].
  simpl in *. by rewrite Hm, Hp.
Qed.

Lemma read_sign_split s neg body :
  read_sign s = (neg, body) →
  ∃ sg, s = sg +:+ body ∧ sign_text sg neg.
Proof.
  unfold read_sign. destruct s as [|c s].
  - intros [= <- <-]. exists EmptyString. split; [done | by left].
  - destruct (Ascii.eqb c "-") eqn:Hm;
      [|destruct (Ascii.eqb c "+") eqn:Hp]; intros [= <- <-].
    + apply Ascii.eqb_eq in Hm as ->. exists "-"%string.
      split; [done | by right; right].
    + apply Ascii.eqb_eq in Hp as ->. exists "+"%string.
      split; [done | by right; left].
    + exists EmptyString. split; [done | by left].
Qed.

(** The scan up to the body: white space and the sign. *)
Lemma scan_to_body ws sg neg c body :
  all_chars isspace ws = true →
  sign_text sg neg →
  isdigit c = true ∨ c = "."%char
  ∨ tolower c = code "i" ∨ tolower c = code "n" →
  read_sign (skip_space (ws +:+ sg +:+ String c body))
  = (neg, String c body).
Proof.
  intros Hws Hsg (Hspace & Hm & Hp)%number_start_not_space_sign.
  rewrite skip_space_app by done.
  rewrite skip_space_stop.
  - by apply read_sign_text.
  - by destruct Hsg as [[-> _] | [[-> _] | [-> _]]].
Qed.

Section format.
Variables (prec emax : Z) (what : string).

Lemma round_and_return_valid neg radix m e w :
  round_and_return prec emax what neg radix m e
  ≠ Throw (invalid_argument w).
Proof.
  unfold round_and_return. destruct (m =? 0); [done|].
  destruct (fraction_of radix m e) as [n d].
  destruct (overflows _ _ _ _); [done|].
  by destruct (tiny _ _ _ _ && inexact _ _ _ _).
Qed.

(** [strtod] reads the decimal number a string starts with. *)
Lemma strtod_decimal ws num rest neg m e :
  all_chars isspace ws = true →
  decimal_number num neg m e →
  ends_number rest = true →
  strtod prec emax what (ws +:+ num +:+ rest)
  = round_and_return prec emax what neg 10 m e.
Proof.
  intros Hws (sg & ip & fr & fp & ex & x & -> & Hsg & Hfr & Hdigits & Hex
              & -> & ->) Hrest.
  destruct (decimal_body_first ip fr fp ex x rest)
    as (c & body & Hbody & Hc & Hx); [done..|].
  rewrite !string_app_assoc. unfold strtod.
  rewrite Hbody, (scan_to_body ws sg neg c body) by (done || tauto).
  destruct (not_word_at_number c body Hc) as [-> ->].
  rewrite read_hex_None by done. rewrite <- Hbody.
  apply ends_number_spec in Hrest as (Hd & Hp & He & _).
  assert (isdigit (first_char (ex +:+ rest)) = false
          ∧ Ascii.eqb (first_char (ex +:+ rest)) "." = false) as [Hd' Hp'].
  { destruct Hex as [[-> ->] | (c' & num & -> & Hc' & _)]; [done|].
    rewrite string_app_cons. simpl first_char.
    by destruct Hc' as [-> | ->]. }
  unfold read_decimal.
  rewrite (read_mantissa_decimal ip fr fp (ex +:+ rest)) by done.
  simpl. by rewrite (read_exponent_decimal ex x rest).
Qed.

(** [strtod] reads [inf] and [nan], whatever follows them. *)
Lemma strtod_inf ws sg neg body :
  all_chars isspace ws = true →
  sign_text sg neg →
  starts_with_nocase "inf" body = true →
  strtod prec emax what (ws +:+ sg +:+ body) = Return (S754_infinity neg).
Proof.
  intros Hws Hsg Hinf. destruct body as [|c body]; [done|].
  unfold strtod. rewrite (scan_to_body ws sg neg c body), Hinf; [done..|].
  right; right; left. simpl in Hinf.
  apply andb_true_iff in Hinf as [Hi _]. by apply Z.eqb_eq.
Qed.

Lemma strtod_nan ws sg neg body :
  all_chars isspace ws = true →
  sign_text sg neg →
  starts_with_nocase "nan" body = true →
  strtod prec emax what (ws +:+ sg +:+ body) = Return S754_nan.
Proof.
  intros Hws Hsg Hnan. destruct body as [|c body]; [done|].
  assert (tolower c = code "n") as Hn.
  { simpl in Hnan. apply andb_true_iff in Hnan as [Hn _].
    by apply Z.eqb_eq. }
  assert (starts_with_nocase "inf" (String c body) = false) as Hinf
    by (simpl; by rewrite Hn).
  unfold strtod.
  rewrite (scan_to_body ws sg neg c body), Hinf, Hnan; [done..|].
  by right; right; right.
Qed.

(** [strtod] throws [invalid_argument] exactly when the string does not
    start like a number. *)
Lemma strtod_valid tok w :
  has_float_prefix tok →
  strtod prec emax what tok ≠ Throw (invalid_argument w).
Proof.
  intros (ws & sg & body & neg & -> & Hws & Hsg & Hstart).
  unfold strtod.
  destruct body as [|c body]; [done|].
  unfold starts_number in Hstart.
  destruct (starts_with_nocase "inf" (String c body)) eqn:Hinf.
  { rewrite (scan_to_body ws sg neg c body), Hinf; [done..|].
    right; right; left. simpl in Hinf.
    apply andb_true_iff in Hinf as [Hi _]. by apply Z.eqb_eq. }
  destruct (starts_with_nocase "nan" (String c body)) eqn:Hnan.
  { rewrite (scan_to_body ws sg neg c body), Hinf, Hnan; [done..|].
    right; right; right. simpl in Hnan.
    apply andb_true_iff in Hnan as [Hn _]. by apply Z.eqb_eq. }
  rewrite !orb_false_r in Hstart.
  assert (isdigit c = true ∨ c = "."%char) as Hc.
  { apply orb_true_iff in Hstart as [?|[Hp _]%andb_true_iff]; [by left|].
    right. by apply Ascii.eqb_eq. }
  rewrite (scan_to_body ws sg neg c body), Hinf, Hnan by tauto.
  destruct (read_hex (String c body)) as [[m e]|];
    [apply round_and_return_valid|].
  assert (is_Some (read_mantissa isdigit digit_value 10 (String c body)))
    as [[[m nf] s'] Hm].
  { apply orb_true_iff in Hstart as [Hdig|[Hp Hdig]%andb_true_iff].
    - by apply read_mantissa_digit.
    - apply Ascii.eqb_eq in Hp as ->.
      destruct body as [|d body]; [done|].
      by apply read_mantissa_point. }
  unfold read_decimal. rewrite Hm. simpl. apply round_and_return_valid.
Qed.

Lemma strtod_invalid tok :
  ¬ has_float_prefix tok →
  strtod prec emax what tok = Throw (invalid_argument what).
Proof.
  intros Hno. unfold strtod.
  destruct (skip_space_split tok) as (ws & Htok & Hws).
  destruct (read_sign (skip_space tok)) as [neg body] eqn:Hsign.
  apply read_sign_split in Hsign as (sg & Hbody & Hsg).
  assert (starts_number body = false) as Hstart.
  { apply not_true_is_false. intros Hstart. apply Hno.
    exists ws, sg, body, neg. by rewrite <- Hbody. }
  unfold starts_number in Hstart.
  apply orb_false_iff in Hstart as [Hstart ->].
  apply orb_false_iff in Hstart as [Hstart ->].
  assert (read_hex body = None) as ->.
  { destruct body as [|c0 [|c1 body]]; [done..|]. unfold read_hex.
    destruct (Ascii.eqb c0 "0") eqn:H0; [|done].
    apply Ascii.eqb_eq in H0 as ->. done. }
  assert (read_mantissa isdigit digit_value 10 body = None) as Hm.
  { apply eq_None_not_Some.
    intros [Hd | (s' & -> & Hd)]%read_mantissa_first.
    - destruct body as [|c body]; [done|]. simpl in Hd.
      by rewrite Hd in Hstart.
    - simpl in Hstart. by rewrite Hd in Hstart. }
  unfold read_decimal. by rewrite Hm.
Qed.
End format.

Lemma fraction_of_decimal m e :
  fraction_of 10 m e = (numerator m e, denominator e).
Proof.
  unfold fraction_of, numerator, denominator.
  destruct (0 <=? e) eqn:He.
  - by rewrite Z.max_l, Z.max_r by lia.
  - rewrite Z.max_r, Z.max_l by lia. simpl. by rewrite Z.mul_1_r.
Qed.

(** Conversion to [float] and to [double] of the number [m * 10 ^ e]. *)
Lemma round_and_return_float neg m e :
  round_and_return 24 128 "stof" neg 10 m e
  = if m =? 0 then Return (S754_zero neg)
    else if above_float_range (numerator m e) (denominator e)
            || below_float_range (numerator m e) (denominator e)
         then Throw (out_of_range "stof")
         else Return (nearest_float neg (numerator m e) (denominator e)).
Proof.
  unfold round_and_return. rewrite fraction_of_decimal.
  destruct (m =? 0); [done|].
  change (overflows 24 128 (numerator m e) (denominator e))
    with (above_float_range (numerator m e) (denominator e)).
  change (tiny 24 128 (numerator m e) (denominator e)
          && inexact 24 128 (numerator m e) (denominator e))
    with (below_float_range (numerator m e) (denominator e)).
  destruct (above_float_range _ _); [done|].
  by destruct (below_float_range _ _).
Qed.

Lemma round_and_return_double neg m e :
  round_and_return 53 1024 "stod" neg 10 m e
  = if m =? 0 then Return (S754_zero neg)
    else if above_double_range (numerator m e) (denominator e)
            || below_double_range (numerator m e) (denominator e)
         then Throw (out_of_range "stod")
         else Return (nearest_double neg (numerator m e) (denominator e)).
Proof.
  unfold round_and_return. rewrite fraction_of_decimal.
  destruct (m =? 0); [done|].
  change (overflows 53 1024 (numerator m e) (denominator e))
    with (above_double_range (numerator m e) (denominator e)).
  change (tiny 53 1024 (numerator m e) (denominator e)
          && inexact 53 1024 (numerator m e) (denominator e))
    with (below_double_range (numerator m e) (denominator e)).
  destruct (above_double_range _ _); [done|].
  by destruct (below_double_range _ _).
Qed.

(** A decimal number is made of digits, signs, a point and the letter
    [e]. *)
Lemma decimal_number_chars num neg m e :
  decimal_number num neg m e → all_chars number_char num = true.
Proof.
  intros (sg & ip & fr & fp & ex & x & -> & Hsg & Hfr & Hdigits & Hex & _).
  apply digits_all_chars in Hdigits. rewrite all_chars_app in Hdigits.
  apply andb_true_iff in Hdigits as [Hip Hfp].
  assert (∀ ds, all_chars isdigit ds = true →
                all_chars number_char ds = true) as Hds.
  { intros ds. apply all_chars_impl. intros c Hc.
    unfold number_char. by rewrite Hc. }
  rewrite !all_chars_app. repeat (apply andb_true_iff; split).
  - by destruct Hsg as [[-> _] | [[-> _] | [-> _]]].
  - by apply Hds.
  - destruct Hfr as [[-> _] | ->]; [done|].
    change ("." +:+ fp) with (String "." fp). simpl. by apply Hds.
  - destruct Hex as [[-> _] | (c & w & -> & Hc & Hw & _)]; [done|].
    simpl. apply andb_true_iff. split; [by destruct Hc as [-> | ->]|].
    destruct w as [|d w]; [done|]. simpl in Hw. simpl.
    destruct (Ascii.eqb d "-" || Ascii.eqb d "+") eqn:Hd.
    + apply andb_true_iff. split; [|by apply Hds, digits_all_chars].
      unfold number_char.
      apply orb_true_iff in Hd as [-> | ->]; by rewrite ?orb_true_r.
    + by apply (Hds (String d w)).
Qed.
End strtod_properties.

Example stof_plain : stof "0.9" = Return (S754_finite false 15099494 (-24)).
Proof. reflexivity. Qed.

Example stof_trailing :
  stof " -1.5e1x" = Return (S754_finite true 15728640 (-20)).
Proof. reflexivity. Qed.

Example stof_no_number : stof "notanumber" = Throw (invalid_argument "stof").
Proof. reflexivity. Qed.

Example stof_infinity : stof "-Infinity" = Return (S754_infinity true).
Proof. reflexivity. Qed.

Example stof_nan : stof "nanometer" = Return S754_nan.
Proof. reflexivity. Qed.

Example stof_hexadecimal :
  stof "0x1.8p1" = Return (S754_finite false 12582912 (-22)).
Proof. reflexivity. Qed.

Example stof_hexadecimal_prefix_only : stof "0x" = Return (S754_zero false).
Proof. reflexivity. Qed.

Example stof_largest :
  stof "340282356779733661637539395458142568447"
  = Return (S754_finite false 16777215 104).
Proof. vm_compute. reflexivity. Qed.

Example stof_above_largest :
  stof "340282356779733661637539395458142568448"
  = Throw (out_of_range "stof").
Proof. vm_compute. reflexivity. Qed.

Example stof_smallest : stof "0x1p-149" = Return (S754_finite false 1 (-149)).
Proof. vm_compute. reflexivity. Qed.

Example stof_below_smallest : stof "1e-46" = Throw (out_of_range "stof").
Proof. vm_compute. reflexivity. Qed.

Example stod_plain :
  stod "0.1" = Return (S754_finite false 7205759403792794 (-56)).
Proof. vm_compute. reflexivity. Qed.

(** ** The table of parameters *)

Lemma int_of_char_lt c : int_of_char c < kMaxParams.
Proof.
  unfold int_of_char, kMaxParams. pose proof (code_range c).
  destruct (code c <? 128) eqn:E; lia.
Qed.

Lemma int_of_char_inj c d : int_of_char c = int_of_char d → c = d.
Proof.
  unfold int_of_char. pose proof (code_range c). pose proof (code_range d).
  intros H1. apply code_inj.
  destruct (code c <? 128) eqn:E1, (code d <? 128) eqn:E2; lia.
Qed.

Section table.
Context {S : Type}.
Implicit Types (P : Parser.Parser S) (p q : ParamInfo.ParamInfo S)
  (ps : list (ParamInfo.ParamInfo S)).

Lemma new_table_ok argv : table_ok (Parser.new (S := S) argv).
Proof.
  split; [apply length_replicate|].
  intros i q [[=] _]%lookup_replicate.
Qed.

Lemma addParam_spec p P :
  0 ≤ int_of_char (ParamInfo.key p) →
  table_ok P →
  ∃ P',
    Parser.addParam p P = Some P'
    ∧ table_ok P'
    ∧ Parser.errors_ P' = Parser.errors_ P
    ∧ Parser.argv_ P' = Parser.argv_ P
    ∧ ∀ i : nat,
        Parser.params_ P' !! i
        = if decide (Z.of_nat i = int_of_char (ParamInfo.key p))
          then Some (Some p) else Parser.params_ P !! i.
Proof.
  intros Hkey [Hlen Hidx]. pose proof (int_of_char_lt (ParamInfo.key p)).
  unfold Parser.addParam, Parser.params_set.
  replace (_ && _) with true by lia.
  eexists. split; [done|]. simpl.
  assert (∀ i : nat,
    <[Z.to_nat (int_of_char (ParamInfo.key p)) := Some p]>
      (Parser.params_ P) !! i
    = if decide (Z.of_nat i = int_of_char (ParamInfo.key p))
      then Some (Some p) else Parser.params_ P !! i) as Hlook.
  { intros i. case_decide as Hi.
    - rewrite <- Hi, Nat2Z.id. apply list_lookup_insert_eq.
      rewrite Hlen. unfold kMaxParams in *. lia.
    - apply list_lookup_insert_ne. lia. }
  split; [split; simpl|]; [by rewrite length_insert | | done].
  intros i q. rewrite Hlook. case_decide; [by intros [= <-] | apply Hidx].
Qed.

Lemma last_of_key_nil q : ¬ last_of_key [] q.
Proof. intros (l1 & l2 & H & _). by destruct l1. Qed.

Lemma last_of_key_cons p ps q :
  last_of_key (p :: ps) q
  ↔ last_of_key ps q
    ∨ (q = p ∧ Forall (λ r, ParamInfo.key r ≠ ParamInfo.key q) ps).
Proof.
  split.
  - intros (l1 & l2 & Heq & Hl2). destruct l1 as [|p' l1].
    + injection Heq as -> ->. by right.
    + injection Heq as -> ->. left. by exists l1, l2.
  - intros [(l1 & l2 & -> & Hl2) | [-> Hps]].
    + by exists (p :: l1), l2.
    + by exists [], ps.
Qed.

Lemma last_of_key_in ps q : last_of_key ps q → q ∈ ps.
Proof. intros (l1 & l2 & -> & _). apply elem_of_app. right. left. Qed.

Lemma addParams_spec ps P :
  Forall (λ p, 0 ≤ int_of_char (ParamInfo.key p)) ps →
  table_ok P →
  ∃ P',
    addParams ps P = Some P'
    ∧ table_ok P'
    ∧ Parser.errors_ P' = Parser.errors_ P
    ∧ Parser.argv_ P' = Parser.argv_ P
    ∧ ∀ (i : nat) q,
        Parser.params_ P' !! i = Some (Some q)
        ↔ (last_of_key ps q ∧ int_of_char (ParamInfo.key q) = Z.of_nat i)
          ∨ (Forall (λ r, int_of_char (ParamInfo.key r) ≠ Z.of_nat i) ps
             ∧ Parser.params_ P !! i = Some (Some q)).
Proof.
  intros Hkeys. revert P.
  induction Hkeys as [|p ps Hp Hps IH]; intros P HP.
  - exists P. do 4 (split; [done|]). intros i q. split.
    + intros H. right. by split.
    + by intros [[[]%last_of_key_nil _] | [_ H]].
  - destruct (addParam_spec p P Hp HP) as (P1 & Hadd & HP1 & He1 & Ha1 & Hl1).
    destruct (IH P1 HP1) as (P' & Hadds & HP' & He & Ha & Hl).
    exists P'. simpl. rewrite Hadd. simpl.
    split; [done|]. split; [done|]. do 2 (split; [congruence|]).
    intros i q. split.
    + intros [[Hlast Hi] | [Hnone Hin]]%Hl.
      * left. split; [|done]. apply last_of_key_cons. by left.
      * rewrite Hl1 in Hin. case_decide as Hd.
        -- injection Hin as <-. left. split; [|done].
           apply last_of_key_cons. right. split; [done|].
           eapply Forall_impl; [exact Hnone|]. simpl. intros r Hr Hk.
           apply Hr. by rewrite Hk.
        -- right. split; [|done]. constructor; [|done]. congruence.
    + intros [[[Hlast | [-> Hothers]]%last_of_key_cons Hi] | [Hnone Hin]];
        apply Hl.
      * by left.
      * right. split.
        -- eapply Forall_impl; [exact Hothers|]. simpl. intros r Hr Hk.
           apply Hr. apply int_of_char_inj. congruence.
        -- rewrite Hl1. by rewrite decide_True.
      * inversion Hnone as [|? ? Hne Hnone']; subst.
        right. split; [done|]. rewrite Hl1. by rewrite decide_False.
Qed.

Lemma elem_of_registered P q :
  q ∈ Parser.registered P
  ↔ ∃ i : nat, Parser.params_ P !! i = Some (Some q).
Proof.
  unfold Parser.registered. rewrite list_elem_of_omap. split.
  - intros (x & [i Hi]%list_elem_of_lookup & Hx). simpl in Hx. subst x. eauto.
  - intros [i Hi]. exists (Some q). split; [|done].
    by eapply list_elem_of_lookup_2.
Qed.

Lemma omap_sorted (l : list (option (ParamInfo.ParamInfo S))) (off : nat) :
  (∀ (i : nat) q, l !! i = Some (Some q) →
                  int_of_char (ParamInfo.key q) = Z.of_nat (off + i)) →
  StronglySorted key_lt (omap id l)
  ∧ Forall (λ q, Z.of_nat off ≤ int_of_char (ParamInfo.key q)) (omap id l).
Proof.
  revert off. induction l as [|x l IH]; intros off Hidx.
  - split; constructor.
  - destruct (IH (Datatypes.S off)) as [Hsorted Hlow].
    { intros i q Hi. rewrite (Hidx (Datatypes.S i) q Hi). lia. }
    destruct x as [q|]; simpl.
    + pose proof (Hidx 0%nat q eq_refl) as Hq.
      split; constructor.
      * done.
      * eapply Forall_impl; [exact Hlow|]. unfold key_lt. simpl. lia.
      * lia.
      * eapply Forall_impl; [exact Hlow|]. simpl. lia.
    + split; [done|]. eapply Forall_impl; [exact Hlow|]. simpl. lia.
Qed.

Lemma registered_sorted P :
  table_ok P → StronglySorted key_lt (Parser.registered P).
Proof.
  intros [_ Hidx]. apply (omap_sorted _ 0). intros i q Hi.
  by rewrite (Hidx i q Hi).
Qed.

Lemma sorted_keys_NoDup (l : list (ParamInfo.ParamInfo S)) :
  StronglySorted key_lt l → NoDup (ParamInfo.key <$> l).
Proof.
  induction 1 as [|q l Hsorted IH Hlt]; simpl; constructor; [|done].
  intros (r & Hk & Hr)%list_elem_of_fmap.
  rewrite Forall_forall in Hlt. apply Hlt in Hr.
  unfold key_lt in Hr. rewrite Hk in Hr. lia.
Qed.

(** The parameters of the table after registering [ps] in a new parser *)
Lemma registered_addParams ps argv :
  Forall (λ p, 0 ≤ int_of_char (ParamInfo.key p)) ps →
  ∃ P,
    addParams ps (Parser.new argv) = Some P
    ∧ Parser.errors_ P = []
    ∧ Parser.argv_ P = argv
    ∧ StronglySorted key_lt (Parser.registered P)
    ∧ ∀ q, q ∈ Parser.registered P ↔ last_of_key ps q.
Proof.
  intros Hkeys.
  destruct (addParams_spec ps (Parser.new argv) Hkeys (new_table_ok argv))
    as (P & Hadd & HP & He & Ha & Hl).
  exists P. do 3 (split; [done|]). split; [by apply registered_sorted|].
  intros q. rewrite elem_of_registered. split.
  - intros [i [[Hlast _] | [_ Hnew]]%Hl]; [done|].
    by apply lookup_replicate in Hnew as [[=] _].
  - intros Hlast.
    assert (0 ≤ int_of_char (ParamInfo.key q)) as Hq.
    { rewrite Forall_forall in Hkeys. by apply Hkeys, last_of_key_in. }
    exists (Z.to_nat (int_of_char (ParamInfo.key q))). apply Hl. left.
    split; [done | lia].
Qed.

Lemma help_defined q :
  (hasDef q = true → is_Some (ParamInfo.defaultStr q)) →
  ∃ line, ParamInfo.help q = Some line ∧ help_line q line.
Proof.
  destruct q as [T VT p]. unfold help_line. simpl.
  unfold ParameterT.help. destruct (ParameterT.hasDef_ p); intros Hd.
  - destruct (Hd eq_refl) as [d Hd']. rewrite Hd'. simpl.
    eexists. split; [done|]. eexists. split; [by exists d | done].
  - simpl. eexists. split; [done|]. by exists EmptyString.
Qed.

Lemma help_lines (l : list (ParamInfo.ParamInfo S)) :
  Forall (λ q, hasDef q = true → is_Some (ParamInfo.defaultStr q)) l →
  ∃ lines, mapM ParamInfo.help l = Some lines ∧ Forall2 help_line l lines.
Proof.
  induction 1 as [|q l Hq Hl (lines & Hlines & Hall)].
  - by exists [].
  - destruct (help_defined q Hq) as (line & Hline & Hfmt).
    exists (line :: lines). simpl. rewrite Hline. simpl. rewrite Hlines.
    split; [done|]. by constructor.
Qed.
End table.

(** ** [Parameter::parseValue] *)

Section parseValue.
Context {S ValueT : Type} `{VT : ValueType ValueT}.
Implicit Types (p : ParameterT.ParameterT S ValueT) (st : S).

Lemma parseValue_return p val st v :
  fromStr val = Return v →
  ParameterT.parseValue p val st
  = Some (true, p, store (ParameterT.output_ p) v st).
Proof. unfold ParameterT.parseValue. by intros ->. Qed.

(** A conversion that throws leaves the caller's memory as it was,
    returns false and records the token in [parseErr_]. *)
Lemma parseValue_throw p val st e :
  fromStr val = Throw e →
  ∃ err,
    ParameterT.parseValue p val st
    = Some (false, ParameterT.set_parseErr p err, st)
    ∧ source err = val
    ∧ desc err = Some (match e with
                       | invalid_argument _ => "Invalid Argument"
                       | out_of_range _ => "Value Out of Range"
                       end)%string.
Proof.
  unfold ParameterT.parseValue. intros ->.
  destruct e; eexists; (split; [reflexivity | split; reflexivity]).
Qed.
End parseValue.

(** ** [Parser::parse] *)

Section parse.
Context {S : Type}.
Implicit Types (P : Parser.Parser S) (st : S).

(** Whenever [parse] returns, it returns false, and [errors_] is what it
    was before the call. *)
Lemma parse_never_succeeds P st :
  match Parser.parse P st with
  | Some (r, P', _, _) =>
      r = false ∧ Parser.errors_ P' = Parser.errors_ P
  | None => True
  end.
Proof.
  unfold Parser.parse.
  destruct (index_argv _ 1) as [[s1|]|]; simpl; try done.
  destruct (Parser.params_get _ _) as [[param|]|]; simpl; try done.
  destruct (index_argv _ 2) as [a2|]; simpl; try done.
  destruct (ParamInfo.parseValue _ _ _) as [[[ok p'] st']|]; simpl; try done.
  unfold Parser.params_set. destruct (_ && _); simpl; done.
Qed.

(** A first token whose first character has no parameter faults. *)
Lemma parse_null_entry P st s :
  index_argv (Parser.argv_ P) 1 = Some (Some s) →
  Parser.params_get P (int_of_char (first_char s)) = Some None →
  Parser.parse P st = None.
Proof.
  intros H1 H2. unfold Parser.parse. rewrite H1. simpl. by rewrite H2.
Qed.

(** Without a first token there is nothing to index. *)
Lemma parse_no_token P st prog :
  Parser.argv_ P = [prog] → Parser.parse P st = None.
Proof. intros H. unfold Parser.parse. by rewrite H. Qed.
End parse.

(** ** The example program *)

(** The declarations of [main] succeed on every command line, and leave
    the table entry of the character '-' null. *)
Lemma declare_no_dash (stof : string → outcome float) (fmt : float → string)
    (argv : list string) :
  ∃ a,
    main_cpp.declare stof fmt argv = Some a
    ∧ Parser.argv_ (Args.parser_ a) = argv
    ∧ Parser.errors_ (Args.parser_ a) = []
    ∧ Parser.params_get (Args.parser_ a) (int_of_char "-") = Some None.
Proof. eexists. repeat split; reflexivity. Qed.

(** ** The claims *)

(** C1. The claim: [parse] returns true exactly when the error list is
    empty. The code: on the command line [prog d 1] of the example
    program, [parse] converts the value of the parameter [d] and writes
    [gOptions.debug], the error list stays empty, and [parse] returns
    false. *)
Theorem C1_parse_false_with_no_error (stof : string → outcome float)
    (fmt : float → string) (prog : string) :
  ∃ a out,
    main_cpp.declare_and_parse stof fmt [prog; "d"; "1"]%string
    = Some (false, a,
            {| main_cpp.infile := None; main_cpp.tmppath := None;
               main_cpp.outfile := None; main_cpp.rate := S754_zero false;
               main_cpp.debug := true; main_cpp.verbose := false |},
            out)
    ∧ Parser.errors_ (Args.parser_ a) = [].
Proof. do 2 eexists. split; reflexivity. Qed.

(** C2. The example command line of the header,
    [-dvi /input/file -t=/tmp/path/ --rate 0.9 /output/file], given to the
    example program: [parse] indexes the table with the character '-',
    finds a null pointer and calls through it. There is no result. *)
Theorem C2_example_command_line_faults (stof : string → outcome float)
    (fmt : float → string) (prog : string) :
  main_cpp.declare_and_parse stof fmt
    [prog; "-dvi"; "/input/file"; "-t=/tmp/path/"; "--rate"; "0.9";
     "/output/file"]%string
  = None
  ∧ main_cpp.main stof fmt
      [prog; "-dvi"; "/input/file"; "-t=/tmp/path/"; "--rate"; "0.9";
       "/output/file"]%string
    = None.
Proof. split; reflexivity. Qed.

(** C3. The token [--rate=notanumber] given to the example program:
    [parse] faults on the null table entry of '-', so it neither returns
    false nor records an error. *)
Theorem C3_rate_notanumber_faults (stof : string → outcome float)
    (fmt : float → string) (prog : string) :
  main_cpp.declare_and_parse stof fmt [prog; "--rate=notanumber"%string]
  = None.
Proof. reflexivity. Qed.

(** C4, as stated, fails. For [int]: "12abc" is not a well-formed decimal,
    and its conversion succeeds with 12. For [float]: "0.9abc" is no
    decimal number, with or without an exponent, and its conversion
    succeeds with the [float] nearest to 0.9. *)
Lemma C4_counterexample :
  ¬ (∀ (tok : string) (st : Z),
       well_formed_decimal tok = false →
       ∃ p',
         ParameterT.parseValue count (Some tok) st = Some (false, p', st)
         ∧ desc (ParameterT.parseErr_ p') = Some "Invalid Argument"%string)
  ∧ ¬ (∀ (tok : string) (st : float),
         (¬ ∃ neg m e, decimal_number tok neg m e) →
         ∃ p',
           ParameterT.parseValue (VT := float_ValueType stof no_fmt)
             ratio (Some tok) st
           = Some (false, p', st)
           ∧ desc (ParameterT.parseErr_ p')
             = Some "Invalid Argument"%string).
Proof.
  split.
  - intros H. destruct (H "12abc"%string 0 eq_refl) as (p' & Hp & _).
    discriminate Hp.
  - intros H.
    destruct (H "0.9abc"%string (S754_zero false)) as (p' & Hp & _).
    + intros (neg & m & e & Hnum%decimal_number_chars). discriminate Hnum.
    + discriminate Hp.
Qed.

(** C4, amended. Conversion of a token to [int], to [float] and to
    [double] by [parseValue].

    To [int]. Every token either does not start, after white space, with a
    well-formed decimal, or is white space, a well-formed decimal and a
    rest that does not go on with a digit. In the first case [parseValue]
    fails with "Invalid Argument"; in the second it succeeds with the value
    of the decimal if the value fits [int] and fails with "Value Out of
    Range" otherwise, and the rest is ignored.

    To [float] and to [double]. [parseValue] fails with "Invalid Argument"
    exactly when the token does not start, after white space and an
    optional sign, with a digit, a point and a digit, or [inf] or [nan].
    After white space and an optional sign, [inf] converts to the
    infinity of that sign and [nan] to a NaN, whatever follows them.
    When the token is white space, a decimal number (digits with an
    optional point and an optional exponent) and a rest that does not go
    on like a number, [parseValue] succeeds with a zero of the number's
    sign when all the digits are zeros; fails with "Value Out of Range"
    when the number is above the range of the type, or below it and not
    exactly a number of the type; and else succeeds with the number of
    the type that is nearest to it; the rest is ignored.

    A failure leaves the caller's memory as it was and records the token
    as the error's [source]; the error's [details] dangle. *)
Theorem C4_conversion_of_numbers {S : Type} (tok : string) (st : S) :
  (¬ has_decimal_prefix tok
   ∨ ∃ ws num rest : string,
       tok = ws +:+ num +:+ rest
       ∧ all_chars isspace ws = true
       ∧ well_formed_decimal num = true
       ∧ isdigit (first_char rest) = false)
  ∧ (∀ p : ParameterT.ParameterT S Z,
       ¬ has_decimal_prefix tok →
       ParameterT.parseValue p (Some tok) st
       = Some (false,
               ParameterT.set_parseErr p
                 {| desc := Some "Invalid Argument"%string;
                    source := Some tok;
                    details := dangling |},
               st))
  ∧ (∀ (p : ParameterT.ParameterT S Z) (ws num rest : string),
       tok = ws +:+ num +:+ rest →
       all_chars isspace ws = true →
       well_formed_decimal num = true →
       isdigit (first_char rest) = false →
       ParameterT.parseValue p (Some tok) st
       = if in_int_range (decimal_value num)
         then Some (true, p,
                    store (ParameterT.output_ p) (decimal_value num) st)
         else Some (false,
                    ParameterT.set_parseErr p
                      {| desc := Some "Value Out of Range"%string;
                         source := Some tok;
                         details := dangling |},
                    st))
  ∧ (∀ (fmt : float → string) (q : ParameterT.ParameterT S float),
       (ParameterT.parseValue (VT := float_ValueType stof fmt) q
          (Some tok) st
        = rejected q "Invalid Argument" tok st
        ↔ ¬ has_float_prefix tok)
       ∧ (∀ (ws sg body : string) (neg : bool),
            tok = ws +:+ sg +:+ body →
            all_chars isspace ws = true →
            sign_text sg neg →
            (starts_with_nocase "inf" body = true →
             ParameterT.parseValue (VT := float_ValueType stof fmt) q
               (Some tok) st
             = converted q (S754_infinity neg) st)
            ∧ (starts_with_nocase "nan" body = true →
               ParameterT.parseValue (VT := float_ValueType stof fmt) q
                 (Some tok) st
               = converted q S754_nan st))
       ∧ ∀ (ws num rest : string) (neg : bool) (m e : Z),
           tok = ws +:+ num +:+ rest →
           all_chars isspace ws = true →
           decimal_number num neg m e →
           ends_number rest = true →
           ParameterT.parseValue (VT := float_ValueType stof fmt) q
             (Some tok) st
           = if m =? 0 then converted q (S754_zero neg) st
             else if above_float_range (numerator m e) (denominator e)
                     || below_float_range (numerator m e) (denominator e)
                  then rejected q "Value Out of Range" tok st
                  else converted q
                         (nearest_float neg (numerator m e) (denominator e))
                         st)
  ∧ (∀ (fmt : double → string) (q : ParameterT.ParameterT S double),
       (ParameterT.parseValue (VT := double_ValueType stod fmt) q
          (Some tok) st
        = rejected q "Invalid Argument" tok st
        ↔ ¬ has_float_prefix tok)
       ∧ (∀ (ws sg body : string) (neg : bool),
            tok = ws +:+ sg +:+ body →
            all_chars isspace ws = true →
            sign_text sg neg →
            (starts_with_nocase "inf" body = true →
             ParameterT.parseValue (VT := double_ValueType stod fmt) q
               (Some tok) st
             = converted q (S754_infinity neg) st)
            ∧ (starts_with_nocase "nan" body = true →
               ParameterT.parseValue (VT := double_ValueType stod fmt) q
                 (Some tok) st
               = converted q S754_nan st))
       ∧ ∀ (ws num rest : string) (neg : bool) (m e : Z),
           tok = ws +:+ num +:+ rest →
           all_chars isspace ws = true →
           decimal_number num neg m e →
           ends_number rest = true →
           ParameterT.parseValue (VT := double_ValueType stod fmt) q
             (Some tok) st
           = if m =? 0 then converted q (S754_zero neg) st
             else if above_double_range (numerator m e) (denominator e)
                     || below_double_range (numerator m e) (denominator e)
                  then rejected q "Value Out of Range" tok st
                  else converted q
                         (nearest_double neg (numerator m e) (denominator e))
                         st).
Proof.
  split; [|split; [|split; [|split]]].
  - destruct (has_decimal_prefix_dec tok) as [Hyes|]; [right | by left].
    by apply has_decimal_prefix_maximal.
  - intros p Hno. unfold ParameterT.parseValue. simpl.
    by rewrite stoi_no_decimal_prefix.
  - intros p ws num rest -> Hws Hnum Hrest.
    unfold ParameterT.parseValue. simpl.
    rewrite stoi_decimal_prefix by done.
    by destruct (in_int_range _).
  - intros fmt q. unfold ParameterT.parseValue. simpl.
    split; [|split].
    + split.
      * destruct (stof tok) as [v|[w|w]|] eqn:Hstof; [done| |done..].
        intros _ Hyes. by apply (strtod_valid 24 128 "stof" tok w).
      * intros Hno. unfold stof. by rewrite strtod_invalid.
    + intros ws sg body neg -> Hws Hsg. unfold stof. split; intros Hword.
      * by rewrite (strtod_inf 24 128 "stof" ws sg neg body).
      * by rewrite (strtod_nan 24 128 "stof" ws sg neg body).
    + intros ws num rest neg m e -> Hws Hnum Hrest. unfold stof.
      rewrite (strtod_decimal 24 128 "stof" ws num rest neg m e) by done.
      rewrite round_and_return_float. destruct (m =? 0); [done|].
      by destruct (_ || _).
  - intros fmt q. unfold ParameterT.parseValue. simpl.
    split; [|split].
    + split.
      * destruct (stod tok) as [v|[w|w]|] eqn:Hstod; [done| |done..].
        intros _ Hyes. by apply (strtod_valid 53 1024 "stod" tok w).
      * intros Hno. unfold stod. by rewrite strtod_invalid.
    + intros ws sg body neg -> Hws Hsg. unfold stod. split; intros Hword.
      * by rewrite (strtod_inf 53 1024 "stod" ws sg neg body).
      * by rewrite (strtod_nan 53 1024 "stod" ws sg neg body).
    + intros ws num rest neg m e -> Hws Hnum Hrest. unfold stod.
      rewrite (strtod_decimal 53 1024 "stod" ws num rest neg m e) by done.
      rewrite round_and_return_double. destruct (m =? 0); [done|].
      by destruct (_ || _).
Qed.

Lemma C4_conversion_of_numbers_witness :
  ParameterT.parseValue count (Some "abc"%string) 7
  = Some (false,
          ParameterT.set_parseErr count
            {| desc := Some "Invalid Argument"%string;
               source := Some "abc"%string;
               details := dangling |},
          7)
  ∧ ParameterT.parseValue count (Some " -12abc"%string) 7
    = Some (true, count, -12)
  ∧ ParameterT.parseValue count (Some "2147483648"%string) 7
    = Some (false,
            ParameterT.set_parseErr count
              {| desc := Some "Value Out of Range"%string;
                 source := Some "2147483648"%string;
                 details := dangling |},
            7)
  ∧ ¬ has_float_prefix "notanumber"
  ∧ ParameterT.parseValue (VT := float_ValueType stof no_fmt) ratio
      (Some " -Infinity"%string) (S754_zero false)
    = Some (true, ratio, S754_infinity true)
  ∧ ParameterT.parseValue (VT := float_ValueType stof no_fmt) ratio
      (Some "nanometer"%string) (S754_zero false)
    = Some (true, ratio, S754_nan)
  ∧ ParameterT.parseValue (VT := float_ValueType stof no_fmt) ratio
      (Some " -0.9abc"%string) (S754_zero false)
    = Some (true, ratio, S754_finite true 15099494 (-24))
  ∧ ParameterT.parseValue (VT := float_ValueType stof no_fmt) ratio
      (Some "340282356779733661637539395458142568448"%string)
      (S754_zero false)
    = rejected ratio "Value Out of Range"
        "340282356779733661637539395458142568448" (S754_zero false)
  ∧ ParameterT.parseValue (VT := float_ValueType stof no_fmt) ratio
      (Some "1e-46"%string) (S754_zero false)
    = rejected ratio "Value Out of Range" "1e-46" (S754_zero false)
  ∧ ParameterT.parseValue (VT := double_ValueType stod no_fmt) ratio_double
      (Some "1e-46 "%string) (S754_zero false)
    = Some (true, ratio_double, S754_finite false 5142201741628769 (-205)).
Proof.
  split; [|split; [|split; [|split; [|split; [|split; [|split; [|split;
    [|split]]]]]]]].
  - apply (proj1 (proj2 (C4_conversion_of_numbers "abc" 7)) count).
    intros (ws & num & rest & Heq & Hws & Hnum).
    destruct ws as [|c ws].
    + destruct num as [|c num]; [discriminate Hnum|].
      injection Heq as <- _. discriminate Hnum.
    + injection Heq as <- _. discriminate Hws.
  - apply (proj1 (proj2 (proj2 (C4_conversion_of_numbers " -12abc" 7)))
             count " " "-12" "abc"); reflexivity.
  - apply (proj1 (proj2 (proj2 (C4_conversion_of_numbers "2147483648" 7)))
             count EmptyString "2147483648" EmptyString); reflexivity.
  - apply (proj1 (proj1 (proj1 (proj2 (proj2 (proj2
             (C4_conversion_of_numbers "notanumber" (S754_zero false)))))
             no_fmt ratio))).
    reflexivity.
  - apply (proj1 (proj1 (proj2 (proj1 (proj2 (proj2 (proj2
             (C4_conversion_of_numbers " -Infinity" (S754_zero false)))))
             no_fmt ratio))
             " " "-" "Infinity" true eq_refl eq_refl
             (or_intror (or_intror (conj eq_refl eq_refl))))).
    reflexivity.
  - apply (proj2 (proj1 (proj2 (proj1 (proj2 (proj2 (proj2
             (C4_conversion_of_numbers "nanometer" (S754_zero false)))))
             no_fmt ratio))
             EmptyString EmptyString "nanometer" false eq_refl eq_refl
             (or_introl (conj eq_refl eq_refl)))).
    reflexivity.
  - etransitivity;
      [apply (proj2 (proj2 (proj1 (proj2 (proj2 (proj2
                (C4_conversion_of_numbers " -0.9abc" (S754_zero false)))))
                no_fmt ratio))
              " " "-0.9" "abc" true 9 (-1));
       [reflexivity | reflexivity | | reflexivity]
      | vm_compute; reflexivity].
    exists "-"%string, "0"%string, ".9"%string, "9"%string,
      EmptyString, 0.
    split; [reflexivity|]. split; [by right; right|]. split; [by right|].
    split; [reflexivity|]. split; [by left|]. split; reflexivity.
  - etransitivity;
      [apply (proj2 (proj2 (proj1 (proj2 (proj2 (proj2
                (C4_conversion_of_numbers
                   "340282356779733661637539395458142568448"
                   (S754_zero false)))))
                no_fmt ratio))
              EmptyString "340282356779733661637539395458142568448"
              EmptyString false
              340282356779733661637539395458142568448 0);
       [reflexivity | reflexivity | | reflexivity]
      | vm_compute; reflexivity].
    exists EmptyString, "340282356779733661637539395458142568448"%string,
      EmptyString, EmptyString, EmptyString, 0.
    split; [reflexivity|]. split; [by left|]. split; [by left|].
    split; [reflexivity|]. split; [by left|].
    split; vm_compute; reflexivity.
  - etransitivity;
      [apply (proj2 (proj2 (proj1 (proj2 (proj2 (proj2
                (C4_conversion_of_numbers "1e-46" (S754_zero false)))))
                no_fmt ratio))
              EmptyString "1e-46" EmptyString false 1 (-46));
       [reflexivity | reflexivity | | reflexivity]
      | vm_compute; reflexivity].
    exists EmptyString, "1"%string, EmptyString, EmptyString,
      "e-46"%string, (-46).
    split; [reflexivity|]. split; [by left|]. split; [by left|].
    split; [reflexivity|]. split; [|split; reflexivity].
    right. exists "e"%char, "-46"%string.
    split; [reflexivity|]. split; [by left|]. split; reflexivity.
  - etransitivity;
      [apply (proj2 (proj2 (proj2 (proj2 (proj2 (proj2
                (C4_conversion_of_numbers "1e-46 " (S754_zero false)))))
                no_fmt ratio_double))
              EmptyString "1e-46" " " false 1 (-46));
       [reflexivity | reflexivity | | reflexivity]
      | vm_compute; reflexivity].
    exists EmptyString, "1"%string, EmptyString, EmptyString,
      "e-46"%string, (-46).
    split; [reflexivity|]. split; [by left|]. split; [by left|].
    split; [reflexivity|]. split; [|split; reflexivity].
    right. exists "e"%char, "-46"%string.
    split; [reflexivity|]. split; [by left|]. split; reflexivity.
Defined.

(** C5. The flag of the boolean parameter [debug] of the example program,
    in its short form [-d] and in its long form [--debug], whatever
    follows it: [parse] faults, the field is not set. *)
Theorem C5_boolean_flag_faults (stof : string → outcome float)
    (fmt : float → string) (prog : string) (rest : list string) :
  main_cpp.declare_and_parse stof fmt (prog :: "-d"%string :: rest) = None
  ∧ main_cpp.declare_and_parse stof fmt (prog :: "--debug"%string :: rest)
    = None.
Proof. split; reflexivity. Qed.

(** C6. A key without a parameter, written [-x] or [x], whatever follows
    it: [parse] faults on the null table entry. *)
Theorem C6_unknown_key_faults (stof : string → outcome float)
    (fmt : float → string) (prog : string) (rest : list string) :
  main_cpp.declare_and_parse stof fmt (prog :: "-x"%string :: rest) = None
  ∧ main_cpp.declare_and_parse stof fmt (prog :: "x"%string :: rest) = None.
Proof. split; reflexivity. Qed.

(** C7, as stated, fails: a parameter with the key of a registered one is
    registered without an error, and two parameters with one long name are
    both in the table. *)
Lemma C7_counterexample :
  ¬ rejects_duplicates (S := main_cpp.Options)
  ∧ ¬ unique_when_parsing (S := main_cpp.Options).
Proof.
  split.
  - intros H.
    pose proof (H (default (Parser.new [])
                     (Parser.addParam par_debug (Parser.new [])))
                  par_debug par_same_key) as Hdup.
    discriminate Hdup.
    + vm_compute. apply list_elem_of_here.
    + by left.
  - intros H.
    destruct (H [par_debug; par_same_name] [] _ eq_refl) as [_ Hnames].
    vm_compute in Hnames.
    inversion Hnames as [|? ? Hnotin _]. apply Hnotin, list_elem_of_here.
Qed.

(** C7, amended. Registration never fails and records no error: the table
    then holds, of the parameters registered, exactly those that are the
    last registered with their key (a later parameter replaces an earlier
    one of the same key; long names are not compared), so the keys of the
    table are pairwise distinct. Keys are 7-bit characters. *)
Theorem C7_registration_replaces {S : Type}
    (ps : list (ParamInfo.ParamInfo S)) (argv : list string) :
  Forall (λ p, 0 ≤ int_of_char (ParamInfo.key p)) ps →
  ∃ P,
    addParams ps (Parser.new argv) = Some P
    ∧ Parser.errors_ P = []
    ∧ (∀ q, q ∈ Parser.registered P ↔ last_of_key ps q)
    ∧ NoDup (ParamInfo.key <$> Parser.registered P).
Proof.
  intros Hkeys.
  destruct (registered_addParams ps argv Hkeys)
    as (P & Hadd & He & _ & Hsorted & Hlast).
  exists P. do 3 (split; [done|]). by apply sorted_keys_NoDup.
Qed.

Lemma C7_registration_replaces_witness :
  Forall (λ p, 0 ≤ int_of_char (ParamInfo.key p))
    [par_debug; par_same_key; par_same_name]
  ∧ ∃ P,
      addParams [par_debug; par_same_key; par_same_name] (Parser.new [])
      = Some P
      ∧ Parser.errors_ P = []
      ∧ (∀ q, q ∈ Parser.registered P
              ↔ last_of_key [par_debug; par_same_key; par_same_name] q)
      ∧ NoDup (ParamInfo.key <$> Parser.registered P).
Proof.
  assert (Forall (λ p, 0 ≤ int_of_char (ParamInfo.key p))
            [par_debug; par_same_key; par_same_name]) as Hkeys
    by (repeat constructor; by vm_compute).
  split; [exact Hkeys|].
  exact (C7_registration_replaces [par_debug; par_same_key; par_same_name]
           [] Hkeys).
Defined.

(** C8. The parameter [input] of the example program is declared with the
    default "./in.foo" and is not given on the command line [prog d 1]; after
    [parse] the field [infile] is still the null pointer it was, and
    [rate], declared with the default 0.75, is still zero. *)
Theorem C8_default_not_written (stof : string → outcome float)
    (fmt : float → string) (prog : string) :
  ∃ a opts out,
    main_cpp.declare_and_parse stof fmt [prog; "d"; "1"]%string
    = Some (false, a, opts, out)
    ∧ Parser.params_get (Args.parser_ a) (int_of_char "i")
      = Some (Some (ParamInfo.upcast
           (ParameterT.new_default main_cpp.p_infile "i" "input"
              "Specify the input file" (Some "./in.foo"%string))))
    ∧ main_cpp.infile opts = None
    ∧ main_cpp.rate opts = S754_zero false.
Proof. do 3 eexists. repeat split; reflexivity. Qed.

(** C9, as stated, fails: [par_input] is registered before [par_debug], and the
    help text is not the usage line followed by the line of [par_input] and
    then the line of [par_debug]. *)
Lemma C9_counterexample :
  ∃ a, input_then_debug = Some a ∧ ¬ help_in_order [par_input; par_debug] a.
Proof.
  eexists. split; [reflexivity|].
  intros (lines & Hlines & Hhelp).
  vm_compute in Hlines. injection Hlines as <-.
  vm_compute in Hhelp. discriminate Hhelp.
Qed.

(** C9, amended. The help text is the usage line, then one line for each
    parameter of the table, by increasing key, then an empty line; the
    parameters of the table are those that are the last registered with
    their key; a line is the key in a column of 5, the long name in a
    column of 14, the default in a column of 24 that is blank when no
    default was given, the help text and a newline. Keys are 7-bit
    characters and the text of every default is defined. *)
Theorem C9_help_in_key_order {S : Type}
    (ps : list (ParamInfo.ParamInfo S)) (argv : list string)
    (label : string) :
  Forall (λ p, 0 ≤ int_of_char (ParamInfo.key p)) ps →
  Forall (λ p, hasDef p = true → is_Some (ParamInfo.defaultStr p)) ps →
  ∃ P lines,
    addParams ps (Parser.new argv) = Some P
    ∧ (let a := Args.remainder label (Args.set_parser (Args.new argv) P) in
       Args.help a
       = Some (Args.usage a +:+ endl +:+ String.concat EmptyString lines +:+ endl))
    ∧ Forall2 help_line (Parser.registered P) lines
    ∧ StronglySorted key_lt (Parser.registered P)
    ∧ ∀ q, q ∈ Parser.registered P ↔ last_of_key ps q.
Proof.
  intros Hkeys Hdefaults.
  destruct (registered_addParams ps argv Hkeys)
    as (P & Hadd & _ & _ & Hsorted & Hlast).
  destruct (help_lines (Parser.registered P)) as (lines & Hlines & Hfmt).
  { rewrite Forall_forall in Hdefaults |- *.
    intros q Hq%Hlast%last_of_key_in. by apply Hdefaults. }
  exists P, lines. split; [done|]. split; [|done].
  unfold Args.help. simpl. by rewrite Hlines.
Qed.

Lemma C9_help_in_key_order_witness :
  Forall (λ p, 0 ≤ int_of_char (ParamInfo.key p)) [par_input; par_debug]
  ∧ Forall (λ p, hasDef p = true → is_Some (ParamInfo.defaultStr p))
      [par_input; par_debug]
  ∧ ∃ P lines,
      addParams [par_input; par_debug] (Parser.new ["./foo"%string]) = Some P
      ∧ (let a := Args.remainder "output path"
                    (Args.set_parser (Args.new ["./foo"%string]) P) in
         Args.help a
         = Some (Args.usage a +:+ endl +:+ String.concat EmptyString lines +:+ endl))
      ∧ Forall2 help_line (Parser.registered P) lines
      ∧ StronglySorted key_lt (Parser.registered P)
      ∧ ∀ q, q ∈ Parser.registered P ↔ last_of_key [par_input; par_debug] q.
Proof.
  assert (Forall (λ p, 0 ≤ int_of_char (ParamInfo.key p)) [par_input; par_debug])
    as Hkeys by (repeat constructor; by vm_compute).
  assert (Forall (λ p, hasDef p = true → is_Some (ParamInfo.defaultStr p))
            [par_input; par_debug]) as Hdefaults.
  { repeat constructor; [|discriminate]. intros _. by eexists. }
  split; [exact Hkeys|]. split; [exact Hdefaults|].
  exact (C9_help_in_key_order [par_input; par_debug] ["./foo"%string] "output path"
           Hkeys Hdefaults).
Defined.

(** C10. [parseValue] of a boolean parameter, on any value string and on
    the null pointer too, returns true and stores true through
    [output_]. *)
Theorem C10_bool_parseValue_always_true {S : Type}
    (p : ParameterT.ParameterT S bool) (s : cstr) (st : S) :
  ParameterT.parseValue p s st
  = Some (true, p, store (ParameterT.output_ p) true st)
  ∧ ParamInfo.parseValue (ParamInfo.upcast p) s st
    = Some (true, ParamInfo.upcast p, store (ParameterT.output_ p) true st).
Proof. split; reflexivity. Qed.

(** * Further properties of the code *)

(** ** [Parser::parse], step by step *)

Section parse_steps.
Context {S : Type}.
Implicit Types (P : Parser.Parser S) (st : S).

Lemma params_set_same P i param :
  Parser.params_get P i = Some (Some param) →
  Parser.params_set P i param = Some P.
Proof.
  unfold Parser.params_get, Parser.params_set.
  destruct (_ && _); [|done]. intros Hi.
  rewrite list_insert_id by done. by destruct P.
Qed.

Lemma params_get_set P P' i j param :
  (Z.to_nat i < length (Parser.params_ P))%nat →
  Parser.params_set P i param = Some P' →
  Parser.params_get P' j
  = if decide (j = i) then Some (Some param) else Parser.params_get P j.
Proof.
  unfold Parser.params_get, Parser.params_set. intros Hlen.
  destruct (decide (0 ≤ i < kMaxParams)) as [Hr|Hr].
  - replace ((0 <=? i) && (i <? kMaxParams)) with true in * by lia.
    intros [= <-]. simpl. case_decide as Hj.
    + subst j. replace ((0 <=? i) && (i <? kMaxParams)) with true by lia.
      by apply list_lookup_insert_eq.
    + destruct ((0 <=? j) && (j <? kMaxParams)) eqn:Hrj; [|done].
      apply list_lookup_insert_ne. lia.
  - by replace ((0 <=? i) && (i <? kMaxParams)) with false in * by lia.
Qed.

Lemma params_get_lt P i slot :
  Parser.params_get P i = Some slot →
  (Z.to_nat i < length (Parser.params_ P))%nat.
Proof.
  unfold Parser.params_get. destruct (_ && _); [|done].
  apply lookup_lt_Some.
Qed.

Lemma params_set_fields P i param P' :
  Parser.params_set P i param = Some P' →
  Parser.errors_ P' = Parser.errors_ P
  ∧ Parser.argv_ P' = Parser.argv_ P
  ∧ length (Parser.params_ P') = length (Parser.params_ P).
Proof.
  unfold Parser.params_set. destruct (_ && _); [|done].
  intros [= <-]. simpl. by rewrite length_insert.
Qed.

Lemma errors_ext P P' :
  Parser.errors_ P' = Parser.errors_ P →
  Parser.argv_ P' = Parser.argv_ P →
  Parser.errors P' = Parser.errors P.
Proof. unfold Parser.errors, Parser.argc_. by intros -> ->. Qed.

Lemma index_argv_1 (argv : list string) (tok : string) :
  index_argv argv 1 = Some (Some tok) ↔ argv !! 1%nat = Some tok.
Proof.
  unfold index_argv. change (Z.to_nat 1) with 1%nat.
  change (1 <? 0) with false. cbv iota.
  destruct (argv !! 1%nat) as [t|].
  - split; by intros [= ->].
  - destruct (_ =? _); split; intros [=].
Qed.

(** What a call of [parse] that returns has gone through. *)
Lemma parse_inv P st r P' st' out :
  Parser.parse P st = Some (r, P', st', out) →
  ∃ tok param val ok param',
    index_argv (Parser.argv_ P) 1 = Some (Some tok)
    ∧ Parser.params_get P (int_of_char (first_char tok)) = Some (Some param)
    ∧ index_argv (Parser.argv_ P) 2 = Some val
    ∧ ParamInfo.parseValue param val st = Some (ok, param', st')
    ∧ Parser.params_set P (int_of_char (first_char tok)) param' = Some P'
    ∧ r = false
    ∧ out = (if ok then " Parsed '" +:+ String (first_char tok) EmptyString
                        +:+ endl
             else EmptyString).
Proof.
  unfold Parser.parse.
  destruct (index_argv _ 1) as [[tok|]|]; simpl; try done.
  destruct (Parser.params_get _ _) as [[param|]|] eqn:Hget; simpl; try done.
  destruct (index_argv _ 2) as [val|]; simpl; try done.
  destruct (ParamInfo.parseValue _ _ _) as [[[ok param'] st1]|] eqn:Hpv;
    simpl; try done.
  destruct (Parser.params_set _ _ _) as [P1|] eqn:Hset; simpl; try done.
  intros [= <- <- <- <-]. by exists tok, param, val, ok, param'.
Qed.

(** A conversion that returns: the value is stored, the parser is as it
    was. *)
Lemma parse_converts {ValueT : Type} `{VT : ValueType ValueT} P
    (p : ParameterT.ParameterT S ValueT) st (tok : string) (val : cstr)
    (v : ValueT) :
  index_argv (Parser.argv_ P) 1 = Some (Some tok) →
  index_argv (Parser.argv_ P) 2 = Some val →
  Parser.params_get P (int_of_char (first_char tok))
  = Some (Some (ParamInfo.upcast p)) →
  fromStr val = Return v →
  Parser.parse P st
  = Some (false, P, store (ParameterT.output_ p) v st,
          " Parsed '" +:+ String (first_char tok) EmptyString +:+ endl).
Proof.
  intros Htok Hval Hget Hconv. unfold Parser.parse.
  rewrite Htok. simpl. rewrite Hget. simpl. rewrite Hval. simpl.
  rewrite (parseValue_return p val st v Hconv). simpl.
  by rewrite (params_set_same _ _ _ Hget).
Qed.
End parse_steps.

(** ** Properties of [Parser::parse] *)

(** X1. Whenever [parse] returns, it returns false, the list of errors is
    the one it was before the call, and so is the text of [errors()]. *)
Theorem X1_parse_never_succeeds {S : Type} (P P' : Parser.Parser S)
    (st st' : S) (r : bool) (out : string) :
  Parser.parse P st = Some (r, P', st', out) →
  r = false
  ∧ Parser.errors_ P' = Parser.errors_ P
  ∧ Parser.errors P' = Parser.errors P.
Proof.
  intros (tok & param & val & ok & param' & _ & _ & _ & _ & Hset & -> & _)
    %parse_inv.
  apply params_set_fields in Hset as (He & Ha & _).
  split; [done|]. split; [done|]. by apply errors_ext.
Qed.

Lemma X1_parse_never_succeeds_witness :
  Parser.parse (count_parser ["prog"; "n"; "5"]%string) 0
  = Some (false, count_parser ["prog"; "n"; "5"]%string, 5,
          " Parsed 'n" +:+ endl)
  ∧ false = false
  ∧ Parser.errors_ (count_parser ["prog"; "n"; "5"]%string)
    = Parser.errors_ (count_parser ["prog"; "n"; "5"]%string)
  ∧ Parser.errors (count_parser ["prog"; "n"; "5"]%string)
    = Parser.errors (count_parser ["prog"; "n"; "5"]%string).
Proof.
  assert (Parser.parse (count_parser ["prog"; "n"; "5"]%string) 0
          = Some (false, count_parser ["prog"; "n"; "5"]%string, 5,
                  " Parsed 'n" +:+ endl)) as Hrun by reflexivity.
  split; [exact Hrun|].
  exact (X1_parse_never_succeeds _ _ _ _ _ _ Hrun).
Defined.

(** X2. [parse] returns only when there is a first argument after the
    program name and the first character of that argument is the key of a
    registered parameter: without arguments, and on any other first
    character, it faults. *)
Theorem X2_parse_needs_registered_key {S : Type} (P P' : Parser.Parser S)
    (st st' : S) (r : bool) (out : string) :
  Parser.parse P st = Some (r, P', st', out) →
  ∃ tok param,
    Parser.argv_ P !! 1%nat = Some tok
    ∧ Parser.params_get P (int_of_char (first_char tok))
      = Some (Some param).
Proof.
  intros (tok & param & val & ok & param' & Htok & Hget & _)%parse_inv.
  exists tok, param. by rewrite <- index_argv_1.
Qed.

Lemma X2_parse_needs_registered_key_witness :
  Parser.parse (count_parser ["prog"; "n"; "5"]%string) 0
  = Some (false, count_parser ["prog"; "n"; "5"]%string, 5,
          " Parsed 'n" +:+ endl)
  ∧ ∃ tok param,
      Parser.argv_ (count_parser ["prog"; "n"; "5"]%string) !! 1%nat
      = Some tok
      ∧ Parser.params_get (count_parser ["prog"; "n"; "5"]%string)
          (int_of_char (first_char tok))
        = Some (Some param).
Proof.
  assert (Parser.parse (count_parser ["prog"; "n"; "5"]%string) 0
          = Some (false, count_parser ["prog"; "n"; "5"]%string, 5,
                  " Parsed 'n" +:+ endl)) as Hrun by reflexivity.
  split; [exact Hrun|].
  exact (X2_parse_needs_registered_key _ _ _ _ _ _ Hrun).
Defined.

(** X3. When the first argument starts with the key of a parameter and the
    second argument converts to a value, [parse] stores the value through
    the parameter's pointer, writes " Parsed '" and the key to the output,
    leaves the parser as it was, and returns false. *)
Theorem X3_parse_stores_converted_value {S ValueT : Type}
    `{VT : ValueType ValueT} (P : Parser.Parser S)
    (p : ParameterT.ParameterT S ValueT) (st : S)
    (prog tok val : string) (rest : list string) (v : ValueT) :
  Parser.argv_ P = prog :: tok :: val :: rest →
  Parser.params_get P (int_of_char (first_char tok))
  = Some (Some (ParamInfo.upcast p)) →
  fromStr (Some val) = Return v →
  Parser.parse P st
  = Some (false, P, store (ParameterT.output_ p) v st,
          " Parsed '" +:+ String (first_char tok) EmptyString +:+ endl).
Proof.
  intros Hargv Hget Hconv.
  apply (parse_converts P p st tok (Some val) v); [| |done..];
    by rewrite Hargv.
Qed.

Lemma X3_parse_stores_converted_value_witness :
  Parser.argv_ (count_parser ["prog"; "number"; " 5 apples"]%string)
  = ["prog"; "number"; " 5 apples"]%string
  ∧ Parser.params_get (count_parser ["prog"; "number"; " 5 apples"]%string)
      (int_of_char (first_char "number"))
    = Some (Some (ParamInfo.upcast count))
  ∧ fromStr (T := Z) (Some " 5 apples"%string) = Return 5
  ∧ Parser.parse (count_parser ["prog"; "number"; " 5 apples"]%string) 0
    = Some (false, count_parser ["prog"; "number"; " 5 apples"]%string, 5,
            " Parsed 'n" +:+ endl).
Proof.
  do 3 (split; [reflexivity|]).
  exact (X3_parse_stores_converted_value
           (count_parser ["prog"; "number"; " 5 apples"]%string) count 0
           "prog" "number" " 5 apples" [] 5 eq_refl eq_refl eq_refl).
Defined.

(** X4. When the conversion of the second argument throws, [parse]
    returns false, leaves the caller's memory as it was and writes nothing;
    the failure is kept in the parameter's own [parseErr_], with the
    argument as its source, every other table entry is as it was, and the
    text of [errors()] does not change. *)
Theorem X4_parse_conversion_failure {S ValueT : Type}
    `{VT : ValueType ValueT} (P : Parser.Parser S)
    (p : ParameterT.ParameterT S ValueT) (st : S)
    (prog tok val : string) (rest : list string) (e : exn) :
  Parser.argv_ P = prog :: tok :: val :: rest →
  Parser.params_get P (int_of_char (first_char tok))
  = Some (Some (ParamInfo.upcast p)) →
  fromStr (Some val) = Throw e →
  ∃ P' err,
    Parser.parse P st = Some (false, P', st, EmptyString)
    ∧ Parser.errors P' = Parser.errors P
    ∧ source err = Some val
    ∧ ∀ j, Parser.params_get P' j
           = if decide (j = int_of_char (first_char tok))
             then Some (Some (ParamInfo.upcast
                                (ParameterT.set_parseErr p err)))
             else Parser.params_get P j.
Proof.
  intros Hargv Hget Hconv. unfold Parser.parse. rewrite Hargv.
  change (index_argv (prog :: tok :: val :: rest) 1) with (Some (Some tok)).
  change (index_argv (prog :: tok :: val :: rest) 2) with (Some (Some val)).
  simpl. rewrite Hget. simpl.
  destruct (parseValue_throw p (Some val) st e Hconv)
    as (err & -> & Hsrc & _).
  simpl.
  destruct (Parser.params_set P (int_of_char (first_char tok))
              (ParamInfo.upcast (ParameterT.set_parseErr p err)))
    as [P'|] eqn:Hset.
  - exists P', err. simpl. split; [done|].
    pose proof (params_set_fields _ _ _ _ Hset) as (He & Ha & _).
    split; [by apply errors_ext|]. split; [done|].
    intros j. eapply params_get_set; [|done]. by eapply params_get_lt.
  - unfold Parser.params_get in Hget. unfold Parser.params_set in Hset.
    by destruct (_ && _).
Qed.

Lemma X4_parse_conversion_failure_witness :
  Parser.argv_ (count_parser ["prog"; "n"; "five"]%string)
  = ["prog"; "n"; "five"]%string
  ∧ Parser.params_get (count_parser ["prog"; "n"; "five"]%string)
      (int_of_char (first_char "n"))
    = Some (Some (ParamInfo.upcast count))
  ∧ fromStr (T := Z) (Some "five"%string)
    = Throw (invalid_argument "stoi")
  ∧ ∃ P' err,
      Parser.parse (count_parser ["prog"; "n"; "five"]%string) 0
      = Some (false, P', 0, EmptyString)
      ∧ Parser.errors P'
        = Parser.errors (count_parser ["prog"; "n"; "five"]%string)
      ∧ source err = Some "five"%string
      ∧ ∀ j, Parser.params_get P' j
             = if decide (j = int_of_char (first_char "n"))
               then Some (Some (ParamInfo.upcast
                                  (ParameterT.set_parseErr count err)))
               else Parser.params_get
                      (count_parser ["prog"; "n"; "five"]%string) j.
Proof.
  do 3 (split; [reflexivity|]).
  exact (X4_parse_conversion_failure
           (count_parser ["prog"; "n"; "five"]%string) count 0
           "prog" "n" "five" [] (invalid_argument "stoi")
           eq_refl eq_refl eq_refl).
Defined.

(** X5. [parse] reads two places of the argument vector and no other: the
    first character of the first argument and the second argument. Two
    vectors that agree there give the same result, the same memory and
    the same output. *)
Theorem X5_parse_reads_two_places {S : Type} (P : Parser.Parser S)
    (argv argv' : list string) (st : S) (tok tok' : string) :
  index_argv argv 1 = Some (Some tok) →
  index_argv argv' 1 = Some (Some tok') →
  first_char tok = first_char tok' →
  index_argv argv 2 = index_argv argv' 2 →
  Parser.parse (with_argv P argv') st
  = (λ '(r, P', st', out), (r, with_argv P' argv', st', out))
      <$> Parser.parse (with_argv P argv) st.
Proof.
  intros Htok Htok' Hc Hval. unfold Parser.parse. simpl.
  rewrite Htok, Htok'. simpl. rewrite <- Hval, <- Hc.
  change (Parser.params_get (with_argv P argv'))
    with (Parser.params_get (with_argv P argv)).
  destruct (Parser.params_get _ _) as [[param|]|]; simpl; try done.
  destruct (index_argv argv 2) as [val|]; simpl; try done.
  destruct (ParamInfo.parseValue _ _ _) as [[[ok param'] st']|]; simpl;
    try done.
  unfold Parser.params_set. simpl. by destruct (_ && _).
Qed.

Lemma X5_parse_reads_two_places_witness :
  index_argv ["a"; "n"; "5"; "-x"]%string 1 = Some (Some "n"%string)
  ∧ index_argv ["b"; "name=7"; "5"]%string 1 = Some (Some "name=7"%string)
  ∧ first_char "n" = first_char "name=7"
  ∧ index_argv ["a"; "n"; "5"; "-x"]%string 2
    = index_argv ["b"; "name=7"; "5"]%string 2
  ∧ Parser.parse
      (with_argv (count_parser []) ["b"; "name=7"; "5"]%string) 0
    = (λ '(r, P', st', out),
         (r, with_argv P' ["b"; "name=7"; "5"]%string, st', out))
        <$> Parser.parse
              (with_argv (count_parser []) ["a"; "n"; "5"; "-x"]%string) 0.
Proof.
  do 4 (split; [reflexivity|]).
  exact (X5_parse_reads_two_places (count_parser [])
           ["a"; "n"; "5"; "-x"]%string ["b"; "name=7"; "5"]%string 0
           "n" "name=7" eq_refl eq_refl eq_refl eq_refl).
Defined.

(** X6. A key given as the last argument, with no value after it: [parse]
    hands the null pointer that ends the argument vector to [parseValue].
    A parameter of type [int] or [std::string] then faults; a parameter of
    type [const char*] gets the null pointer stored; a [bool] is set. *)
Theorem X6_parse_without_value {S : Type} (P : Parser.Parser S) (st : S)
    (prog tok : string) :
  Parser.argv_ P = [prog; tok] →
  (∀ p : ParameterT.ParameterT S Z,
     Parser.params_get P (int_of_char (first_char tok))
     = Some (Some (ParamInfo.upcast p)) →
     Parser.parse P st = None)
  ∧ (∀ p : ParameterT.ParameterT S string,
       Parser.params_get P (int_of_char (first_char tok))
       = Some (Some (ParamInfo.upcast p)) →
       Parser.parse P st = None)
  ∧ (∀ p : ParameterT.ParameterT S cstr,
       Parser.params_get P (int_of_char (first_char tok))
       = Some (Some (ParamInfo.upcast p)) →
       Parser.parse P st
       = Some (false, P, store (ParameterT.output_ p) None st,
               " Parsed '" +:+ String (first_char tok) EmptyString +:+ endl))
  ∧ (∀ p : ParameterT.ParameterT S bool,
       Parser.params_get P (int_of_char (first_char tok))
       = Some (Some (ParamInfo.upcast p)) →
       Parser.parse P st
       = Some (false, P, store (ParameterT.output_ p) true st,
               " Parsed '" +:+ String (first_char tok) EmptyString +:+ endl)).
Proof.
  intros Hargv.
  assert (index_argv (Parser.argv_ P) 1 = Some (Some tok)) as Htok
    by (by rewrite Hargv).
  assert (index_argv (Parser.argv_ P) 2 = Some None) as Hval
    by (by rewrite Hargv).
  repeat split; intros p Hget.
  - unfold Parser.parse. rewrite Htok. simpl. rewrite Hget. simpl.
    by rewrite Hval.
  - unfold Parser.parse. rewrite Htok. simpl. rewrite Hget. simpl.
    by rewrite Hval.
  - by apply (parse_converts P p st tok None None).
  - by apply (parse_converts P p st tok None true).
Qed.

Lemma X6_parse_without_value_witness :
  Parser.argv_ (count_parser ["prog"; "n"]%string) = ["prog"; "n"]%string
  ∧ Parser.params_get (count_parser ["prog"; "n"]%string)
      (int_of_char (first_char "n"))
    = Some (Some (ParamInfo.upcast count))
  ∧ Parser.parse (count_parser ["prog"; "n"]%string) 0 = None.
Proof.
  do 2 (split; [reflexivity|]).
  exact (proj1 (X6_parse_without_value
                  (count_parser ["prog"; "n"]%string) 0 "prog" "n" eq_refl)
           count eq_refl).
Defined.

(** ** Properties of [Parameter::parseValue] *)

(** X7. [parseValue] never changes what was declared: the key, the long
    name, the help line, the usage and the text of the default are the
    same after the call, and [isSet()] is what it was (nothing ever sets
    it). When it returns true the parameter is unchanged altogether, so an
    error recorded by an earlier call stays; when it returns false the
    caller's memory is unchanged. *)
Theorem X7_parseValue_keeps_declaration {S : Type}
    (q q' : ParamInfo.ParamInfo S) (val : cstr) (st st' : S) (ok : bool) :
  ParamInfo.parseValue q val st = Some (ok, q', st') →
  ParamInfo.key q' = ParamInfo.key q
  ∧ ParamInfo.name q' = ParamInfo.name q
  ∧ ParamInfo.isSet q' = ParamInfo.isSet q
  ∧ ParamInfo.help q' = ParamInfo.help q
  ∧ ParamInfo.usage q' = ParamInfo.usage q
  ∧ ParamInfo.defaultStr q' = ParamInfo.defaultStr q
  ∧ (ok = true → q' = q)
  ∧ (ok = false → st' = st).
Proof.
  destruct q as [T VT p]. simpl. unfold ParameterT.parseValue.
  destruct (fromStr val) as [v|[w|w]|]; simpl; intros [= <- <- <-];
    by repeat split.
Qed.

Lemma X7_parseValue_keeps_declaration_witness :
  ParamInfo.parseValue (ParamInfo.upcast count_default) (Some "x"%string) 3
  = Some (false,
          ParamInfo.upcast
            (ParameterT.set_parseErr count_default
               {| desc := Some "Invalid Argument"%string;
                  source := Some "x"%string;
                  details := dangling |}),
          3)
  ∧ ParamInfo.defaultStr
      (ParamInfo.upcast
         (ParameterT.set_parseErr count_default
            {| desc := Some "Invalid Argument"%string;
               source := Some "x"%string;
               details := dangling |}))
    = ParamInfo.defaultStr (ParamInfo.upcast count_default).
Proof.
  split; [reflexivity|].
  exact (proj1 (proj2 (proj2 (proj2 (proj2 (proj2
           (X7_parseValue_keeps_declaration
              (ParamInfo.upcast count_default) _ (Some "x"%string) 3 3
              false eq_refl))))))).
Defined.

(** ** Properties of [Parser::addParam] *)

Lemma int_of_char_ge (c : ascii) : 0 ≤ int_of_char c ↔ code c < 128.
Proof.
  unfold int_of_char. pose proof (code_range c).
  destruct (code c <? 128) eqn:E; lia.
Qed.

(** X8. Register, then look up: after [addParam] the table entry of the
    parameter's key is the parameter, every other entry is what it was,
    and the argument vector and the list of errors are untouched. *)
Theorem X8_addParam_then_lookup {S : Type} (P P' : Parser.Parser S)
    (p : ParamInfo.ParamInfo S) :
  length (Parser.params_ P) = Z.to_nat kMaxParams →
  Parser.addParam p P = Some P' →
  Parser.errors_ P' = Parser.errors_ P
  ∧ Parser.argv_ P' = Parser.argv_ P
  ∧ length (Parser.params_ P') = Z.to_nat kMaxParams
  ∧ ∀ j, Parser.params_get P' j
         = if decide (j = int_of_char (ParamInfo.key p))
           then Some (Some p) else Parser.params_get P j.
Proof.
  intros Hlen Hadd. unfold Parser.addParam in Hadd.
  destruct (params_set_fields _ _ _ _ Hadd) as (He & Ha & Hl).
  do 2 (split; [done|]). split; [congruence|].
  intros j. eapply params_get_set; [|done].
  unfold Parser.params_set in Hadd.
  destruct ((0 <=? _) && _) eqn:Hr; [|done].
  rewrite Hlen. unfold kMaxParams in *. lia.
Qed.

Lemma X8_addParam_then_lookup_witness :
  length (Parser.params_ (Parser.new (S := Z) [])) = Z.to_nat kMaxParams
  ∧ Parser.addParam (ParamInfo.upcast count) (Parser.new [])
    = Some (count_parser [])
  ∧ Parser.params_get (count_parser []) (int_of_char "n")
    = Some (Some (ParamInfo.upcast count)).
Proof.
  do 2 (split; [reflexivity|]).
  exact (eq_trans
           (proj2 (proj2 (proj2
              (X8_addParam_then_lookup (Parser.new []) (count_parser [])
                 (ParamInfo.upcast count) eq_refl eq_refl)))
              (int_of_char "n"))
           eq_refl).
Defined.

(** X9. Two registrations in a row: with the same key, the result is that
    of the second registration alone; with different keys, the order of
    the two does not matter. *)
Theorem X9_addParam_last_wins_and_commutes {S : Type} (P : Parser.Parser S)
    (p q : ParamInfo.ParamInfo S) :
  (ParamInfo.key p = ParamInfo.key q →
   Parser.addParam p P ≫= Parser.addParam q = Parser.addParam q P)
  ∧ (ParamInfo.key p ≠ ParamInfo.key q →
     Parser.addParam p P ≫= Parser.addParam q
     = Parser.addParam q P ≫= Parser.addParam p).
Proof.
  unfold Parser.addParam, Parser.params_set. split.
  - intros ->. destruct (_ && _); [|done]. simpl.
    by rewrite list_insert_insert_eq.
  - intros Hne.
    assert (int_of_char (ParamInfo.key p) ≠ int_of_char (ParamInfo.key q))
      as Hidx by (by intros ?%int_of_char_inj).
    destruct ((0 <=? int_of_char (ParamInfo.key p)) && _) eqn:Hp;
      destruct ((0 <=? int_of_char (ParamInfo.key q)) && _) eqn:Hq;
      simpl; rewrite ?Hp, ?Hq; try done.
    do 2 f_equal. apply list_insert_insert_ne. lia.
Qed.

Lemma X9_addParam_last_wins_and_commutes_witness :
  (Parser.addParam par_debug (Parser.new [])
     ≫= Parser.addParam par_same_key
   = Parser.addParam par_same_key (Parser.new []))
  ∧ (Parser.addParam par_debug (Parser.new [])
       ≫= Parser.addParam par_same_name
     = Parser.addParam par_same_name (Parser.new [])
         ≫= Parser.addParam par_debug).
Proof.
  split.
  - exact (proj1 (X9_addParam_last_wins_and_commutes (Parser.new [])
                    par_debug par_same_key) eq_refl).
  - apply (proj2 (X9_addParam_last_wins_and_commutes (Parser.new [])
                    par_debug par_same_name)).
    discriminate.
Defined.

(** X10. [addParam] indexes the table with the key converted to [int]:
    with [char] signed, it stays inside the table exactly for the keys
    below 128, and writes before the table for the others. *)
Theorem X10_addParam_defined_for_7bit_keys {S : Type}
    (P : Parser.Parser S) (p : ParamInfo.ParamInfo S) :
  is_Some (Parser.addParam p P) ↔ code (ParamInfo.key p) < 128.
Proof.
  rewrite <- int_of_char_ge. unfold Parser.addParam, Parser.params_set.
  pose proof (int_of_char_lt (ParamInfo.key p)).
  destruct (decide (0 ≤ int_of_char (ParamInfo.key p))).
  - replace (_ && _) with true by lia. split; [done | by eexists].
  - replace (_ && _) with false by lia. split; [by intros [? [=]] | done].
Qed.

Lemma X10_addParam_defined_for_7bit_keys_witness :
  code (ParamInfo.key par_debug) < 128
  ∧ is_Some (Parser.addParam par_debug (Parser.new [])).
Proof.
  assert (code (ParamInfo.key par_debug) < 128) as Hkey by (by vm_compute).
  split; [exact Hkey|].
  exact (proj2 (X10_addParam_defined_for_7bit_keys (Parser.new [])
                  par_debug) Hkey).
Defined.

(** ** Properties of [help] and [usage] *)

Lemma concat_cons (s : string) (l : list string) :
  String.concat EmptyString (s :: l) = s +:+ String.concat EmptyString l.
Proof. destruct l; simpl; [by rewrite string_app_nil_r | done]. Qed.

Lemma spaces_blanks (n : nat) :
  String.concat EmptyString (replicate n " "%string) = blanks n.
Proof.
  induction n as [|n IH]; [done|].
  change (replicate (Datatypes.S n) " "%string)
    with (" "%string :: replicate n " "%string).
  by rewrite concat_cons, IH.
Qed.

Lemma length_blanks (n : nat) : String.length (blanks n) = n.
Proof. induction n as [|n IH]; [done|]. simpl. by rewrite IH. Qed.

(** A text in a column: the whole text, then the blanks that fill the
    column. *)
Lemma left_width_blanks (w : nat) (s : string) :
  left_width w s = s +:+ blanks (w - String.length s).
Proof. unfold left_width. by rewrite spaces_blanks. Qed.

(** X11. The help line of a parameter is the key after " -", the long
    name after "  --" and the annotation of the default (nothing without
    a default), each of them whole and followed by the blanks that fill
    its column of 5, 14 and 24 characters, then the help text and a
    newline. So the help text never starts before column 43, and it
    starts at column 43 exactly when the columns are not overfull: the
    long name has at most 10 characters and the text of the default (if
    there is a default) at most 12. *)
Theorem X11_help_text_column {S ValueT : Type} `{VT : ValueType ValueT}
    (p : ParameterT.ParameterT S ValueT) (line : string) :
  ParameterT.help p = Some line →
  ∃ vs cols : string,
    (if ParameterT.hasDef_ p
     then ∃ d, ParameterT.defaultStr p = Some d
               ∧ vs = "[default: " +:+ d +:+ "] "
     else vs = EmptyString)
    ∧ cols = " -" +:+ String (ParameterT.key_ p) EmptyString +:+ blanks 2
             +:+ "  --" +:+ ParameterT.name_ p
             +:+ blanks (10 - String.length (ParameterT.name_ p))
             +:+ vs +:+ blanks (24 - String.length vs)
    ∧ line = cols +:+ ParameterT.help_ p +:+ endl
    ∧ (43 ≤ String.length cols)%nat
    ∧ ((String.length (ParameterT.name_ p) ≤ 10)%nat →
       (∀ d, ParameterT.hasDef_ p = true →
             ParameterT.defaultStr p = Some d →
             (String.length d ≤ 12)%nat) →
       String.length cols = 43%nat).
Proof.
  unfold ParameterT.help. rewrite !left_width_blanks.
  assert (String.length (" -" +:+ String (ParameterT.key_ p) EmptyString)
          = 3%nat) as -> by done.
  assert (String.length ("  --" +:+ ParameterT.name_ p)
          = (4 + String.length (ParameterT.name_ p))%nat) as -> by done.
  replace (14 - (4 + String.length (ParameterT.name_ p)))%nat
    with (10 - String.length (ParameterT.name_ p))%nat by lia.
  change (5 - 3)%nat with 2%nat.
  intros Hline.
  assert (∃ vs,
    (if ParameterT.hasDef_ p
     then ∃ d, ParameterT.defaultStr p = Some d
               ∧ vs = "[default: " +:+ d +:+ "] "
     else vs = EmptyString)
    ∧ line = ((" -" +:+ String (ParameterT.key_ p) EmptyString)
              +:+ blanks 2)
             +:+ (("  --" +:+ ParameterT.name_ p)
                  +:+ blanks (10 - String.length (ParameterT.name_ p)))
             +:+ (vs +:+ blanks (24 - String.length vs))
             +:+ ParameterT.help_ p +:+ endl) as (vs & Hvs & ->).
  { destruct (ParameterT.hasDef_ p).
    - destruct (ParameterT.defaultStr p) as [d|]; [|done].
      simpl in Hline. injection Hline as <-.
      exists ("[default: " +:+ d +:+ "] "). split; [by exists d|].
      by rewrite left_width_blanks.
    - simpl in Hline. injection Hline as <-.
      exists EmptyString. split; [done|]. by rewrite left_width_blanks. }
  exists vs. eexists. split; [exact Hvs|]. split; [reflexivity|].
  split; [by rewrite !string_app_assoc|].
  rewrite !string_length_app, !length_blanks. simpl String.length.
  split; [lia|]. intros Hname Hfit.
  destruct (ParameterT.hasDef_ p).
  - destruct Hvs as (d & Hd & ->). specialize (Hfit d eq_refl Hd).
    rewrite !string_length_app. simpl String.length. lia.
  - subst vs. simpl String.length. lia.
Qed.

Lemma X11_help_text_column_witness :
  ParameterT.help count_default
  = Some (" -n    --count     [default: -42]          "
          +:+ "A number" +:+ endl)
  ∧ ∃ vs cols : string,
      vs = "[default: -42] "%string
      ∧ cols = " -n    --count     [default: -42]          "%string
      ∧ " -n    --count     [default: -42]          "
        +:+ "A number" +:+ endl
        = cols +:+ "A number" +:+ endl
      ∧ String.length cols = 43%nat.
Proof.
  assert (ParameterT.help count_default
          = Some (" -n    --count     [default: -42]          "
                  +:+ "A number" +:+ endl)) as Hhelp by reflexivity.
  split; [exact Hhelp|].
  destruct (X11_help_text_column count_default _ Hhelp)
    as (vs & cols & Hvs & Hcols & Hline & Hmin & Hfit).
  exists vs, cols. simpl in Hvs. destruct Hvs as (d & [= <-] & ->).
  split; [reflexivity|]. split; [exact Hcols|]. split; [exact Hline|].
  apply Hfit.
  - vm_compute. repeat constructor.
  - intros d _ [= <-]. vm_compute. repeat constructor.
Defined.

Section help_of_table.
Context {S : Type}.
Implicit Types (P : Parser.Parser S) (a : Args.Args S)
  (q : ParamInfo.ParamInfo S).

(** Replacing a table entry by a related parameter leaves the list of
    registered parameters as it was, up to the relation. *)
Lemma omap_insert_related (R : relation (ParamInfo.ParamInfo S))
    (l : list (option (ParamInfo.ParamInfo S))) (i : nat) q q' :
  (∀ x, R x x) →
  l !! i = Some (Some q) → R q q' →
  Forall2 R (omap id l) (omap id (<[i := Some q']> l)).
Proof.
  intros Hrefl Hi HR. revert i Hi.
  induction l as [|x l IH]; intros [|i] Hi; simplify_eq/=.
  - constructor; [done|]. by apply Forall_Forall2_diag, Forall_true.
  - destruct x; [constructor; [done|]|]; by apply IH.
Qed.

Lemma parseValue_same_declaration q q' (val : cstr) (st st' : S)
    (ok : bool) :
  ParamInfo.parseValue q val st = Some (ok, q', st') →
  same_declaration q q'.
Proof.
  destruct q as [T VT p]. simpl. unfold ParameterT.parseValue.
  by destruct (fromStr val) as [v|[w|w]|]; simpl; intros [= <- <- <-].
Qed.

(** [parse] leaves the table with the same keys and the same help lines. *)
Lemma parse_registered P (st : S) r P' st' out :
  Parser.parse P st = Some (r, P', st', out) →
  Forall2 same_declaration (Parser.registered P) (Parser.registered P').
Proof.
  intros (tok & param & val & ok & param' & _ & Hget & _ & Hpv & Hset & _)
    %parse_inv.
  pose proof (parseValue_same_declaration _ _ _ _ _ _ Hpv) as Hsame.
  unfold Parser.params_get in Hget. unfold Parser.params_set in Hset.
  destruct (_ && _); [|done]. injection Hset as <-.
  unfold Parser.registered. simpl.
  eapply omap_insert_related; [|exact Hget|done]. by split.
Qed.

Lemma help_of_related (l l' : list (ParamInfo.ParamInfo S)) :
  Forall2 same_declaration l l' →
  mapM ParamInfo.help l' = mapM ParamInfo.help l.
Proof.
  intros Hrel. apply Forall2_mapM_ext, Forall2_flip.
  eapply Forall2_impl; [exact Hrel|]. by intros q q' [_ Hh].
Qed.

Lemma keys_of_related (l l' : list (ParamInfo.ParamInfo S)) :
  Forall2 same_declaration l l' →
  map (λ p, String (ParamInfo.key p) EmptyString) l'
  = map (λ p, String (ParamInfo.key p) EmptyString) l.
Proof.
  induction 1 as [|q q' l l' [Hk _] _ IH]; [done|]. simpl.
  by rewrite Hk, IH.
Qed.
End help_of_table.

(** X13. [parse] changes nothing of what [help()] and [usage()] print:
    after a call that returns, both texts, the program name and the label
    of the remainder are what they were before. *)
Theorem X13_parse_keeps_help_and_usage {S : Type} (a a' : Args.Args S)
    (st st' : S) (r : bool) (out : string) :
  Args.parse a st = Some (r, a', st', out) →
  Args.help a' = Args.help a
  ∧ Args.usage a' = Args.usage a
  ∧ Args.remainderName_ a' = Args.remainderName_ a
  ∧ Args.procName_ a' = Args.procName_ a.
Proof.
  unfold Args.parse.
  destruct (Parser.parse _ _) as [[[[r0 P'] st0] out0]|] eqn:Hparse;
    [|done].
  simpl. intros [= <- <- <- <-].
  apply parse_registered in Hparse.
  assert (Args.usage (Args.set_parser a P') = Args.usage a) as Husage.
  { unfold Args.usage. simpl. by rewrite (keys_of_related _ _ Hparse). }
  split; [|done]. unfold Args.help. rewrite Husage. simpl.
  by rewrite (help_of_related _ _ Hparse).
Qed.

Lemma X13_parse_keeps_help_and_usage_witness :
  Args.parse (count_args ["prog"; "n"; "x"]%string) 0
  = Some (false,
          Args.set_parser (count_args ["prog"; "n"; "x"]%string)
            (default (Parser.new [])
               (Parser.addParam
                  (ParamInfo.upcast
                     (ParameterT.set_parseErr count
                        {| desc := Some "Invalid Argument"%string;
                           source := Some "x"%string;
                           details := dangling |}))
                  (Parser.new ["prog"; "n"; "x"]%string))),
          0, EmptyString)
  ∧ Args.help
      (Args.set_parser (count_args ["prog"; "n"; "x"]%string)
         (default (Parser.new [])
            (Parser.addParam
               (ParamInfo.upcast
                  (ParameterT.set_parseErr count
                     {| desc := Some "Invalid Argument"%string;
                        source := Some "x"%string;
                        details := dangling |}))
               (Parser.new ["prog"; "n"; "x"]%string))))
    = Args.help (count_args ["prog"; "n"; "x"]%string).
Proof.
  assert (Args.parse (count_args ["prog"; "n"; "x"]%string) 0
          = Some (false,
                  Args.set_parser (count_args ["prog"; "n"; "x"]%string)
                    (default (Parser.new [])
                       (Parser.addParam
                          (ParamInfo.upcast
                             (ParameterT.set_parseErr count
                                {| desc := Some "Invalid Argument"%string;
                                   source := Some "x"%string;
                                   details := dangling |}))
                          (Parser.new ["prog"; "n"; "x"]%string))),
                  0, EmptyString)) as Hrun by reflexivity.
  split; [exact Hrun|].
  exact (proj1 (X13_parse_keeps_help_and_usage _ _ _ _ _ _ Hrun)).
Defined.

Section usage_of_table.
Context {S : Type}.
Implicit Types (q : ParamInfo.ParamInfo S)
  (ps : list (ParamInfo.ParamInfo S)).

Lemma concat_keys (l : list (ParamInfo.ParamInfo S)) :
  String.concat EmptyString
    (map (λ p, String (ParamInfo.key p) EmptyString) l)
  = string_of_list_ascii (ParamInfo.key <$> l).
Proof.
  induction l as [|q l IH]; [done|].
  change (map ?f (q :: l)) with (f q :: map f l).
  by rewrite concat_cons, IH.
Qed.

Lemma exists_last_of_key ps (c : ascii) :
  Exists (λ x, ParamInfo.key x = c) ps →
  ∃ q, last_of_key ps q ∧ ParamInfo.key q = c.
Proof.
  induction ps as [|r ps IH]; [by intros ?%Exists_nil|].
  intros Hc.
  destruct (decide (Exists (λ x, ParamInfo.key x = c) ps)) as [Hps|Hnone].
  - destruct (IH Hps) as (q & Hlast & Hq).
    exists q. split; [|done]. apply last_of_key_cons. by left.
  - apply Exists_cons in Hc as [Hr|Hps]; [|done].
    exists r. split; [|done]. apply last_of_key_cons. right.
    split; [done|]. rewrite Hr.
    by apply not_Exists_Forall in Hnone; [|apply _].
Qed.

Lemma sorted_keys (l : list (ParamInfo.ParamInfo S)) :
  StronglySorted key_lt l →
  StronglySorted (λ c d, int_of_char c < int_of_char d)
    (ParamInfo.key <$> l).
Proof.
  induction 1 as [|q l _ IH Hq]; simpl; constructor; [done|].
  by apply Forall_fmap.
Qed.
End usage_of_table.

(** X14. After the registration of parameters with 7-bit keys, the usage
    line is "Usage: ", the program name, " -", the registered keys, " <",
    the label of the remainder and ">"; the keys are in increasing order
    of their character code, whatever the order of registration, and each
    key that was registered occurs once. *)
Theorem X14_usage_lists_keys_in_order {S : Type}
    (ps : list (ParamInfo.ParamInfo S)) (argv : list string)
    (label : string) :
  Forall (λ p, 0 ≤ int_of_char (ParamInfo.key p)) ps →
  ∃ P (keys : list ascii),
    addParams ps (Parser.new argv) = Some P
    ∧ Args.usage (Args.remainder label (Args.set_parser (Args.new argv) P))
      = "Usage: " +:+ default EmptyString (argv !! 0%nat) +:+ " -"
        +:+ string_of_list_ascii keys +:+ " <" +:+ label +:+ ">"
    ∧ StronglySorted (λ c d, int_of_char c < int_of_char d) keys
    ∧ ∀ c, c ∈ keys ↔ ∃ p, p ∈ ps ∧ ParamInfo.key p = c.
Proof.
  intros Hkeys.
  destruct (registered_addParams ps argv Hkeys)
    as (P & Hadd & _ & _ & Hsorted & Hlast).
  exists P, (ParamInfo.key <$> Parser.registered P).
  split; [done|]. split; [|split].
  - unfold Args.usage. simpl. by rewrite concat_keys.
  - by apply sorted_keys.
  - intros c. rewrite list_elem_of_fmap. split.
    + intros (q & -> & Hq%Hlast%last_of_key_in). by exists q.
    + intros (p & Hp & <-).
      destruct (exists_last_of_key ps (ParamInfo.key p))
        as (q & Hq%Hlast & Hk).
      { apply Exists_exists. by exists p. }
      by exists q.
Qed.

Lemma X14_usage_lists_keys_in_order_witness :
  Forall (λ p, 0 ≤ int_of_char (ParamInfo.key p))
    [par_input; par_debug; par_same_key]
  ∧ ∃ P (keys : list ascii),
      addParams [par_input; par_debug; par_same_key]
        (Parser.new ["./foo"%string])
      = Some P
      ∧ Args.usage (Args.remainder "output path"
                      (Args.set_parser (Args.new ["./foo"%string]) P))
        = "Usage: " +:+ default EmptyString (["./foo"%string] !! 0%nat)
          +:+ " -" +:+ string_of_list_ascii keys +:+ " <"
          +:+ "output path" +:+ ">"
      ∧ StronglySorted (λ c d, int_of_char c < int_of_char d) keys
      ∧ ∀ c, c ∈ keys
             ↔ ∃ p, p ∈ [par_input; par_debug; par_same_key]
                    ∧ ParamInfo.key p = c.
Proof.
  assert (Forall (λ p, 0 ≤ int_of_char (ParamInfo.key p))
            [par_input; par_debug; par_same_key]) as Hkeys
    by (repeat constructor; by vm_compute).
  split; [exact Hkeys|].
  exact (X14_usage_lists_keys_in_order [par_input; par_debug; par_same_key]
           ["./foo"%string] "output path" Hkeys).
Defined.

(** ** Properties of [Parser::errors] *)

Section errors_text.
Context {S : Type}.
Implicit Types (P : Parser.Parser S) (ps : list (ParamInfo.ParamInfo S)).

Lemma index_argv_in_range (argv : list string) (i : Z) :
  0 ≤ i < Z.of_nat (length argv) →
  ∃ s, argv !! Z.to_nat i = Some s ∧ index_argv argv i = Some (Some s).
Proof.
  intros Hi. destruct (lookup_lt_is_Some_2 argv (Z.to_nat i)) as [s Hs];
    [lia|].
  exists s. split; [done|]. unfold index_argv.
  replace (i <? 0) with false by lia. by rewrite Hs.
Qed.

Lemma errors_fold_defined (argv : list string)
    (l : list Parser.ParseError) (acc : string) :
  Forall (λ e, 0 ≤ Parser.srcArgv e) l →
  foldl (λ (acc : option string) (e : Parser.ParseError),
           out ← acc;
           let out := out +:+ Parser.desc e in
           if Parser.srcArgv e <? Z.of_nat (length argv)
           then a ← index_argv argv (Parser.srcArgv e);
                s ← a;
                Some (out +:+ " @ [" +:+ s +:+ "]")
           else Some out)
    (Some acc) l
  = Some (acc +:+ String.concat EmptyString (render_error argv <$> l)).
Proof.
  intros Hl. revert acc.
  induction Hl as [|e l He _ IH]; intros acc.
  - simpl. by rewrite string_app_nil_r.
  - rewrite fmap_cons, concat_cons. simpl foldl.
    destruct (Parser.srcArgv e <? Z.of_nat (length argv)) eqn:Hlt.
    + destruct (index_argv_in_range argv (Parser.srcArgv e))
        as (s & Hs & ->); [lia|].
      simpl. rewrite IH.
      assert (render_error argv e
              = Parser.desc e +:+ " @ [" +:+ s +:+ "]") as ->
        by (unfold render_error; by rewrite Hlt, Hs).
      by rewrite !string_app_assoc.
    + simpl. rewrite IH.
      assert (render_error argv e = Parser.desc e) as ->
        by (unfold render_error; by rewrite Hlt, string_app_nil_r).
      by rewrite !string_app_assoc.
Qed.

Lemma errors_fold_undefined (argv : list string)
    (l : list Parser.ParseError) (acc : option string) :
  Exists (λ e, Parser.srcArgv e < 0) l →
  foldl (λ (acc : option string) (e : Parser.ParseError),
           out ← acc;
           let out := out +:+ Parser.desc e in
           if Parser.srcArgv e <? Z.of_nat (length argv)
           then a ← index_argv argv (Parser.srcArgv e);
                s ← a;
                Some (out +:+ " @ [" +:+ s +:+ "]")
           else Some out)
    acc l
  = None.
Proof.
  intros Hl. revert acc.
  induction Hl as [e l He | e l _ IH]; intros acc; simpl foldl.
  - simpl in He.
    assert ((Parser.srcArgv e <? Z.of_nat (length argv)) = true) as ->
      by (apply Z.ltb_lt; lia).
    unfold index_argv.
    assert ((Parser.srcArgv e <? 0) = true) as -> by (by apply Z.ltb_lt).
    destruct acc; simpl; by induction l.
  - apply IH.
Qed.

Lemma addParams_errors ps P P' :
  addParams ps P = Some P' →
  Parser.errors_ P' = Parser.errors_ P ∧ Parser.argv_ P' = Parser.argv_ P.
Proof.
  revert P. induction ps as [|p ps IH]; intros P; simpl.
  - by intros [= <-].
  - destruct (Parser.addParam p P) as [P1|] eqn:Hadd; [|done]. simpl.
    intros [He Ha]%IH.
    apply params_set_fields in Hadd as (He1 & Ha1 & _). split; congruence.
Qed.
End errors_text.

(** X15. The text of [errors()]: empty for an empty list of errors;
    otherwise "Error: " followed by the descriptions one after the other,
    without a separator, each followed by " @ [argument]" when its
    [srcArgv] is below [argc]. A negative [srcArgv] passes the check and
    indexes before the argument vector. *)
Theorem X15_errors_report {S : Type} (P : Parser.Parser S) :
  (Parser.errors_ P = [] → Parser.errors P = Some EmptyString)
  ∧ (Parser.errors_ P ≠ [] →
     Forall (λ e, 0 ≤ Parser.srcArgv e) (Parser.errors_ P) →
     Parser.errors P
     = Some ("Error: "
             +:+ String.concat EmptyString
                   (render_error (Parser.argv_ P) <$> Parser.errors_ P)))
  ∧ (Exists (λ e, Parser.srcArgv e < 0) (Parser.errors_ P) →
     Parser.errors P = None).
Proof.
  unfold Parser.errors, Parser.argc_. repeat split.
  - by intros ->.
  - intros Hne Hall. rewrite bool_decide_eq_false_2 by done.
    by apply errors_fold_defined.
  - intros Hneg. rewrite bool_decide_eq_false_2
      by (intros Hnil; rewrite Hnil in Hneg; by apply Exists_nil in Hneg).
    by apply errors_fold_undefined.
Qed.

Lemma X15_errors_report_witness :
  Parser.errors_ parser_with_errors ≠ []
  ∧ Forall (λ e, 0 ≤ Parser.srcArgv e) (Parser.errors_ parser_with_errors)
  ∧ Parser.errors parser_with_errors
    = Some "Error: Unknown key @ [-x]Missing value"%string.
Proof.
  assert (Parser.errors_ parser_with_errors ≠ []) as Hne by discriminate.
  assert (Forall (λ e, 0 ≤ Parser.srcArgv e)
            (Parser.errors_ parser_with_errors)) as Hall
    by (repeat constructor; by vm_compute).
  split; [exact Hne|]. split; [exact Hall|].
  exact (eq_trans
           (proj1 (proj2 (X15_errors_report parser_with_errors)) Hne Hall)
           eq_refl).
Defined.

(** X16. Nothing the code offers ever puts an error into the list: after
    any registrations on a new parser, and after a call of [parse] on top
    of them, [errors()] is the empty string. *)
Theorem X16_errors_always_empty {S : Type}
    (ps : list (ParamInfo.ParamInfo S)) (argv : list string)
    (P : Parser.Parser S) :
  addParams ps (Parser.new argv) = Some P →
  Parser.errors P = Some EmptyString
  ∧ ∀ st r P' st' out,
      Parser.parse P st = Some (r, P', st', out) →
      Parser.errors P' = Some EmptyString.
Proof.
  intros [He Ha]%addParams_errors.
  assert (Parser.errors P = Some EmptyString) as Hempty.
  { unfold Parser.errors. by rewrite He. }
  split; [done|]. intros st r P' st' out Hparse.
  apply parse_inv in Hparse
    as (tok & param & val & ok & param' & _ & _ & _ & _ & Hset & _).
  apply params_set_fields in Hset as (He' & Ha' & _).
  rewrite <- Hempty. by apply errors_ext.
Qed.

Lemma X16_errors_always_empty_witness :
  addParams [ParamInfo.upcast count] (Parser.new ["prog"; "n"; "x"]%string)
  = Some (count_parser ["prog"; "n"; "x"]%string)
  ∧ Parser.errors (count_parser ["prog"; "n"; "x"]%string)
    = Some EmptyString.
Proof.
  split; [reflexivity|].
  exact (proj1 (X16_errors_always_empty [ParamInfo.upcast count]
                  ["prog"; "n"; "x"]%string
                  (count_parser ["prog"; "n"; "x"]%string) eq_refl)).
Defined.

(** ** The text of an [int] default, converted back *)

Lemma pretty_N_char_digit (k : N) :
  (k < 10)%N →
  isdigit (pretty_N_char k) = true
  ∧ digit_value (pretty_N_char k) = Z.of_N k.
Proof.
  intros Hk.
  assert (k = 0 ∨ k = 1 ∨ k = 2 ∨ k = 3 ∨ k = 4 ∨ k = 5 ∨ k = 6 ∨ k = 7
          ∨ k = 8 ∨ k = 9)%N as Hcases by lia.
  by repeat destruct Hcases as [->|Hcases]; [..|subst k].
Qed.

(** The digits [operator<<] writes in front of [s], read back. *)
Lemma pretty_N_go_digits (x : N) (s : string) :
  all_chars isdigit s = true →
  all_chars isdigit (pretty_N_go x s) = true
  ∧ digits_value (pretty_N_go x s)
    = Z.of_N x * 10 ^ Z.of_nat (String.length s) + digits_value s
  ∧ ((0 < x)%N → digits (pretty_N_go x s) = true).
Proof.
  revert s. induction (N.lt_wf_0 x) as [x _ IH]. intros s Hs.
  assert (x = 0 ∨ 0 < x)%N as [->|Hx] by lia.
  - rewrite pretty_N_go_0. split; [done|]. split; [simpl; lia | lia].
  - rewrite pretty_N_go_step by done.
    destruct (pretty_N_char_digit (x `mod` 10)) as [Hd Hv];
      [by apply N.mod_lt|].
    destruct (IH (x `div` 10)%N (N.div_lt x 10 Hx eq_refl)
                (String (pretty_N_char (x `mod` 10)) s))
      as (Hall & Hval & Hne).
    { simpl. by rewrite Hd, Hs. }
    split; [done|]. split.
    + rewrite Hval. simpl digits_value. simpl String.length.
      rewrite Hv, Nat2Z.inj_succ, Z.pow_succ_r by lia.
      rewrite N2Z.inj_div, N2Z.inj_mod.
      pose proof (Z.div_mod (Z.of_N x) 10). lia.
    + intros _.
      destruct (N.eq_0_gt_0_cases (x `div` 10)) as [H0|Hpos].
      * rewrite H0, pretty_N_go_0. simpl. by rewrite Hd, Hs.
      * by apply Hne.
Qed.

Lemma digits_first (s : string) :
  digits s = true → ∃ c r, s = String c r ∧ isdigit c = true.
Proof.
  destruct s as [|c r]; [done|]. simpl.
  intros [Hc _]%andb_true_iff. eauto.
Qed.

Lemma stoi_whole (num : string) :
  well_formed_decimal num = true →
  stoi num
  = if in_int_range (decimal_value num)
    then Return (decimal_value num)
    else Throw (out_of_range "stoi").
Proof.
  intros Hnum.
  pose proof (stoi_decimal_prefix EmptyString num EmptyString
                eq_refl Hnum eq_refl) as Hs.
  by rewrite string_app_nil, string_app_nil_r in Hs.
Qed.

(** [operator<<] on an [int], then [std::stoi] *)
Lemma stoi_pretty (z : Z) :
  in_int_range z = true → stoi (pretty z) = Return z.
Proof.
  intros Hz. destruct z as [|n|n].
  - reflexivity.
  - destruct (pretty_N_go_digits (N.pos n) EmptyString eq_refl)
      as (_ & Hval & Hne).
    specialize (Hne eq_refl).
    change (pretty (Z.pos n)) with (pretty_N_go (N.pos n) EmptyString).
    destruct (digits_first _ Hne) as (c & r & Heq & Hc).
    destruct (digit_not_sign c Hc) as [Hm Hp].
    assert (decimal_value (pretty_N_go (N.pos n) EmptyString) = Z.pos n)
      as Hdec.
    { rewrite Heq. unfold decimal_value. rewrite Hm, Hp, <- Heq, Hval.
      simpl. lia. }
    rewrite stoi_whole, Hdec, Hz; [done|].
    rewrite Heq. unfold well_formed_decimal. rewrite Hm, Hp. simpl orb.
    by rewrite <- Heq.
  - destruct (pretty_N_go_digits (N.pos n) EmptyString eq_refl)
      as (_ & Hval & Hne).
    specialize (Hne eq_refl).
    change (pretty (Z.neg n))
      with (String "-" (pretty_N_go (N.pos n) EmptyString)).
    assert (decimal_value
              (String "-" (pretty_N_go (N.pos n) EmptyString)) = Z.neg n)
      as Hdec.
    { unfold decimal_value. simpl Ascii.eqb. cbv iota. rewrite Hval.
      simpl. lia. }
    rewrite stoi_whole, Hdec, Hz; done.
Qed.

(** X17. Round trip of a default of type [int]: the text [defaultStr()]
    prints for it (and [help()] shows), given back to [parseValue] as a
    value, converts and stores the default itself. *)
Theorem X17_int_default_round_trip {S : Type}
    (p : ParameterT.ParameterT S Z) (st : S) :
  in_int_range (ParameterT.defVal_ p) = true →
  ∃ d,
    ParameterT.defaultStr p = Some d
    ∧ ParameterT.parseValue p (Some d) st
      = Some (true, p,
              store (ParameterT.output_ p) (ParameterT.defVal_ p) st).
Proof.
  intros Hrange. exists (pretty (ParameterT.defVal_ p)). split; [done|].
  unfold ParameterT.parseValue. simpl. by rewrite stoi_pretty.
Qed.

Lemma X17_int_default_round_trip_witness :
  in_int_range (ParameterT.defVal_ count_default) = true
  ∧ ∃ d,
      ParameterT.defaultStr count_default = Some d
      ∧ ParameterT.parseValue count_default (Some d) 0
        = Some (true, count_default, -42).
Proof.
  split; [reflexivity|].
  exact (X17_int_default_round_trip count_default 0 eq_refl).
Defined.

(** ** The example program as a whole *)

Section main_program.
Variable stof : string → outcome float.
Variable fmt : float → string.

Lemma declare_addParams (argv : list string) :
  Args.parser_ <$> main_cpp.declare stof fmt argv
  = addParams (main_params stof fmt) (Parser.new argv).
Proof. reflexivity. Qed.

Lemma declare_help (argv : list string) :
  ∃ a h,
    main_cpp.declare stof fmt argv = Some a
    ∧ Parser.errors_ (Args.parser_ a) = []
    ∧ Parser.argv_ (Args.parser_ a) = argv
    ∧ Args.help a = Some h.
Proof. do 2 eexists. repeat split; reflexivity. Qed.

(** X18. Whenever [main] runs to its end, the exit status is 0 and the
    failure branch was taken: the output is the line " Parsed 'c" when a
    value was converted, then the empty text of [errors()] on a line of its
    own, the whole help text, an empty line and the line "Rate: ...". *)
Theorem X18_main_always_prints_help (argv : list string) (rc : Z)
    (opts : main_cpp.Options) (text : string) :
  main_cpp.main stof fmt argv = Some (rc, opts, text) →
  rc = 0
  ∧ ∃ a h tok,
      main_cpp.declare stof fmt argv = Some a
      ∧ Args.help a = Some h
      ∧ argv !! 1%nat = Some tok
      ∧ (text = (endl +:+ h +:+ endl)
                +:+ "Rate: " +:+ fmt (main_cpp.rate opts) +:+ endl
         ∨ text = (" Parsed '" +:+ String (first_char tok) EmptyString
                   +:+ endl)
                  +:+ (endl +:+ h +:+ endl)
                  +:+ "Rate: " +:+ fmt (main_cpp.rate opts) +:+ endl).
Proof.
  unfold main_cpp.main, main_cpp.declare_and_parse.
  destruct (declare_help argv) as (a & h & -> & Herr & Hargv & Hh).
  simpl.
  destruct (Args.parse a main_cpp.gOptions) as [[[[ok a'] opts'] out]|]
    eqn:Hparse; [|done].
  simpl. unfold Args.parse in Hparse.
  destruct (Parser.parse _ _) as [[[[r0 P'] st0] out0]|] eqn:Hp; [|done].
  injection Hparse as -> <- -> ->.
  pose proof (parse_registered _ _ _ _ _ _ Hp) as Hrel.
  apply parse_inv in Hp
    as (tok & param & val & ok' & param' & Htok & _ & _ & _ & Hset & -> & ->).
  apply params_set_fields in Hset as (He & Ha & _).
  assert (Parser.errors P' = Some EmptyString) as Hempty.
  { unfold Parser.errors. by rewrite He, Herr. }
  assert (Args.help (Args.set_parser a P') = Some h) as Hhelp.
  { rewrite <- Hh. unfold Args.help, Args.usage. simpl.
    by rewrite (keys_of_related _ _ Hrel), (help_of_related _ _ Hrel). }
  change (Args.parser_ (Args.set_parser a P')) with P'.
  rewrite Hempty, Hhelp. simpl. intros [= <- <- <-].
  split; [done|]. exists a, h, tok. split; [done|]. split; [done|].
  split; [by rewrite <- Hargv, <- index_argv_1|].
  destruct ok'; [by right | by left].
Qed.

(** X19. [main] runs to its end only when there is an argument after the
    program name and it starts with one of the letters i, t, r, d, v, with
    no dash before it. *)
Theorem X19_main_needs_a_key_letter (argv : list string)
    (res : Z * main_cpp.Options * string) :
  main_cpp.main stof fmt argv = Some res →
  ∃ tok,
    argv !! 1%nat = Some tok
    ∧ first_char tok ∈ ["i"; "t"; "r"; "d"; "v"]%char.
Proof.
  unfold main_cpp.main, main_cpp.declare_and_parse.
  pose proof (declare_addParams argv) as Hadd.
  destruct (addParams_spec (main_params stof fmt) (Parser.new argv))
    as (P & HP & _ & _ & Hargv & Hlook).
  { repeat constructor; by vm_compute. }
  { apply new_table_ok. }
  rewrite HP in Hadd.
  destruct (main_cpp.declare stof fmt argv) as [a|]; [|done].
  injection Hadd as Ha. change (Some a ≫= ?f) with (f a). cbv beta.
  unfold Args.parse. rewrite Ha.
  destruct (Parser.parse P _) as [[[[r0 P'] st0] out0]|] eqn:Hp; [|done].
  intros _.
  apply parse_inv in Hp
    as (tok & param & val & ok' & param' & Htok & Hget & _).
  apply index_argv_1 in Htok. rewrite Hargv in Htok.
  exists tok. split; [exact Htok|].
  unfold Parser.params_get in Hget. destruct (_ && _) eqn:Hr; [|done].
  apply Hlook in Hget as [[Hlast Hkey] | [_ Hnew]].
  - assert (ParamInfo.key param = first_char tok) as <-.
    { apply int_of_char_inj. lia. }
    apply last_of_key_in in Hlast. unfold main_params in Hlast.
    repeat (apply elem_of_cons in Hlast as [->|Hlast];
            [simpl; by repeat constructor |]).
    by apply elem_of_nil in Hlast.
  - by apply lookup_replicate in Hnew as [[=] _].
Qed.

(** X20. The first argument selects the parameter by its first letter
    alone. Any word that starts with d, whatever follows it, sets
    [debug]; any word that starts with i stores the next argument in
    [infile] as it is. *)
Theorem X20_main_selects_by_first_letter (prog tail : string)
    (rest : list string) :
  (∃ a out,
     main_cpp.declare_and_parse stof fmt (prog :: String "d" tail :: rest)
     = Some (false, a,
             {| main_cpp.infile := None; main_cpp.tmppath := None;
                main_cpp.outfile := None; main_cpp.rate := S754_zero false;
                main_cpp.debug := true; main_cpp.verbose := false |},
             out))
  ∧ (∀ val : string,
       ∃ a out,
         main_cpp.declare_and_parse stof fmt
           (prog :: String "i" tail :: val :: rest)
         = Some (false, a,
                 {| main_cpp.infile := Some val; main_cpp.tmppath := None;
                    main_cpp.outfile := None;
                    main_cpp.rate := S754_zero false;
                    main_cpp.debug := false; main_cpp.verbose := false |},
                 out)).
Proof.
  split.
  - destruct rest; do 2 eexists; reflexivity.
  - intros val. do 2 eexists. reflexivity.
Qed.
End main_program.

Lemma X18_main_always_prints_help_witness :
  ∃ (stof : string → outcome float) (fmt : float → string)
    (opts : main_cpp.Options) (text : string),
    main_cpp.main stof fmt ["prog"; "debug"]%string = Some (0, opts, text)
    ∧ ∃ a h tok,
        main_cpp.declare stof fmt ["prog"; "debug"]%string = Some a
        ∧ Args.help a = Some h
        ∧ ["prog"; "debug"]%string !! 1%nat = Some tok
        ∧ (text = (endl +:+ h +:+ endl)
                  +:+ "Rate: " +:+ fmt (main_cpp.rate opts) +:+ endl
           ∨ text = (" Parsed '" +:+ String (first_char tok) EmptyString
                     +:+ endl)
                    +:+ (endl +:+ h +:+ endl)
                    +:+ "Rate: " +:+ fmt (main_cpp.rate opts) +:+ endl).
Proof.
  pose (stof := λ _ : string, Throw (T := float) (invalid_argument "stof")).
  pose (fmt := λ _ : float, "0"%string).
  assert (∃ opts text,
            main_cpp.main stof fmt ["prog"; "debug"]%string
            = Some (0, opts, text)) as (opts & text & Hrun)
    by (do 2 eexists; reflexivity).
  exists stof, fmt, opts, text. split; [exact Hrun|].
  exact (proj2 (X18_main_always_prints_help stof fmt _ _ _ _ Hrun)).
Defined.

Lemma X19_main_needs_a_key_letter_witness :
  ∃ (stof : string → outcome float) (fmt : float → string)
    (res : Z * main_cpp.Options * string),
    main_cpp.main stof fmt ["prog"; "debug"]%string = Some res
    ∧ ∃ tok,
        ["prog"; "debug"]%string !! 1%nat = Some tok
        ∧ first_char tok ∈ ["i"; "t"; "r"; "d"; "v"]%char.
Proof.
  pose (stof := λ _ : string, Throw (T := float) (invalid_argument "stof")).
  pose (fmt := λ _ : float, "0"%string).
  assert (∃ res,
            main_cpp.main stof fmt ["prog"; "debug"]%string = Some res)
    as (res & Hrun) by (eexists; reflexivity).
  exists stof, fmt, res. split; [exact Hrun|].
  exact (X19_main_needs_a_key_letter stof fmt _ _ Hrun).
Defined.
